(** * NovaSketch whiteboard: stroke hit-testing, partial erase and point
    simplification

    Shallow embedding of [frontend/src/components/Whiteboard/Whiteboard.tsx].

    A JavaScript [number] is an IEEE 754 binary64 value; it is modelled by
    Rocq's primitive [float], whose operations are the same binary64
    operations (round to nearest, ties to even).  Modelling conventions:

    - [v ** 2] is modelled as the binary64 product [v * v];
    - [a === b], [a < b], [a <= b], [a >= b] on numbers are the IEEE
      comparisons [eqb], [ltb], [leb] (all false on NaN);
    - reading an array past its end gives [undefined], which every
      arithmetic use converts to NaN: such a read is modelled as [nan].
      A non-empty point array of even length (every array the component
      builds) is never read past its end;
    - [Date.now()] is an argument of the handler that calls it;
    - a [StrokeLine[]] held in React state is an immutable value: every
      handler maps the current collection to the next one. *)

From Stdlib Require Import ZArith NArith Lia Bool.
From Stdlib Require Import Floats.
From Stdlib Require DecimalString DecimalNat DecimalN.
From stdpp Require Import base list strings.

Local Open Scope float_scope.

(** ** Numbers *)

Definition number : Type := float.

(** [v ** 2] *)
Definition pow2 (v : number) : number := v * v.

(** [Math.min(a, b)]: NaN if either argument is NaN; [-0] is smaller
    than [+0]. *)
Definition Math_min (a b : number) : number :=
  if is_nan a || is_nan b then nan
  else if a <? b then a
  else if b <? a then b
  else if is_zero a && get_sign a then a else b.

(** [Math.max(a, b)]: NaN if either argument is NaN; [+0] is larger
    than [-0]. *)
Definition Math_max (a b : number) : number :=
  if is_nan a || is_nan b then nan
  else if a <? b then b
  else if b <? a then a
  else if is_zero a && negb (get_sign a) then a else b.

(** Template-literal rendering of a non-negative integer. *)
Definition showNat (n : nat) : string :=
  DecimalString.NilEmpty.string_of_uint (Nat.to_uint n).

Definition showN (n : N) : string :=
  DecimalString.NilEmpty.string_of_uint (N.to_uint n).

(** [l[i]] used as a number: [undefined] (index out of range) becomes
    NaN. *)
Definition getNum (l : list number) (i : Z) : number :=
  if (i <? 0)%Z then nan else nth (Z.to_nat i) l nan.

(** ** Data model *)

Definition MIN_POINT_DISTANCE : number := 3.
Definition DEFAULT_BRUSH_SIZE : number := 3.
Definition DEFAULT_STROKE_COLOR : string := "#000000".
Definition DEFAULT_ERASER_SIZE : number := 20.

(** [type ToolType = 'pen' | 'eraser'] *)
Inductive ToolType := Pen | Eraser.
(** [type EraserMode = 'partial' | 'stroke'] *)
Inductive EraserMode := PartialMode | StrokeMode.

(** [interface StrokeLine]; [points] is the flat array
    [x0, y0, x1, y1, ...]. *)
Record StrokeLine := mkStrokeLine {
  id : string;
  points : list number;
  color : string;
  strokeWidth : number
}.

(** The object literals [{ x, y }] of the partial eraser. *)
Record Point := mkPoint { pt_x : number; pt_y : number }.

(** ** Geometry helpers *)

Definition distSq (p1 p2 : Point) : number :=
  pow2 (pt_x p1 - pt_x p2) + pow2 (pt_y p1 - pt_y p2).

Definition isPointInCircle (px py cx cy r : number) : bool :=
  pow2 (px - cx) + pow2 (py - cy) <? pow2 r.

Definition pointToSegmentDistance (px py x1 y1 x2 y2 : number) : number :=
  let dx := x2 - x1 in
  let dy := y2 - y1 in
  let lengthSq := dx * dx + dy * dy in
  if lengthSq =? 0 then
    sqrt (pow2 (px - x1) + pow2 (py - y1))
  else
    let t := ((px - x1) * dx + (py - y1) * dy) / lengthSq in
    let t := Math_max 0 (Math_min 1 t) in
    let closestX := x1 + t * dx in
    let closestY := y1 + t * dy in
    sqrt (pow2 (px - closestX) + pow2 (py - closestY)).

Definition getSegmentCircleIntersections (p1 p2 c : Point) (r : number)
  : list Point :=
  let dx := pt_x p2 - pt_x p1 in
  let dy := pt_y p2 - pt_y p1 in
  let fx := pt_x p1 - pt_x c in
  let fy := pt_y p1 - pt_y c in
  let a := dx * dx + dy * dy in
  let b := 2 * (fx * dx + fy * dy) in
  let C := (fx * fx + fy * fy) - r * r in
  let discriminant := b * b - 4 * a * C in
  if 0 <=? discriminant then
    if a =? 0 then []
    else
      let sqrtDisc := sqrt discriminant in
      let t1 := (- b - sqrtDisc) / (2 * a) in
      let t2 := (- b + sqrtDisc) / (2 * a) in
      (if (0 <=? t1) && (t1 <=? 1)
       then [mkPoint (pt_x p1 + t1 * dx) (pt_y p1 + t1 * dy)] else [])
      ++
      (if (0 <=? t2) && (t2 <=? 1)
       then [mkPoint (pt_x p1 + t2 * dx) (pt_y p1 + t2 * dy)] else [])
  else [].

(** ** Hit testing *)

(** The inner loop of [findStrokeAtPosition],
    [for (j = 0; j < points.length - 2; j += 2)], run on the part of the
    array that starts at index [j]: [true] when some segment is within
    [threshold] of [(x, y)]. *)
Fixpoint hitSegments (x y : number) (pts : list number) (threshold : number)
  : bool :=
  match pts with
  | x1 :: y1 :: ((x2 :: after) as rest) =>
      let y2 := hd nan after in
      let dist := pointToSegmentDistance x y x1 y1 x2 y2 in
      if dist <=? threshold then true
      else hitSegments x y rest threshold
  | _ => false
  end.

(** The outer loop, [for (i = strokes.length - 1; i >= 0; i--)], run on
    the collection listed from its last stroke to its first. *)
Fixpoint scanStrokes (x y : number) (topFirst : list StrokeLine)
    (hitRadius : number) : option string :=
  match topFirst with
  | [] => None
  | stroke :: below =>
      let threshold := hitRadius + strokeWidth stroke / 2 in
      if hitSegments x y (points stroke) threshold then Some (id stroke)
      else scanStrokes x y below hitRadius
  end.

Definition findStrokeAtPosition (x y : number) (strokes : list StrokeLine)
    (hitRadius : number) : option string :=
  scanStrokes x y (rev strokes) hitRadius.

(** ** Partial eraser *)

(** The variables the body of [for (const stroke of strokes)] mutates. *)
Record EraseState := mkEraseState {
  result : list StrokeLine;
  currentLinePoints : list number;
  segmentCount : nat
}.

(** [currentLinePoints.push(a, b)] *)
Definition pushPoint (a b : number) (st : EraseState) : EraseState :=
  mkEraseState (result st) (currentLinePoints st ++ [a; b]) (segmentCount st).

Definition finishLine (stroke : StrokeLine) (st : EraseState) : EraseState :=
  if (4 <=? length (currentLinePoints st))%nat then
    mkEraseState
      (result st ++
         [mkStrokeLine (id stroke +:+ "-" +:+ showNat (segmentCount st))
                       (currentLinePoints st)
                       (color stroke) (strokeWidth stroke)])
      []
      (S (segmentCount st))
  else
    mkEraseState (result st) [] (segmentCount st).

(** [Array.prototype.sort] with a comparator, as a stable insertion sort:
    an element moves in front of those it compares strictly below (a NaN
    comparison counts as equal). *)
Fixpoint sortInsert (comparefn : Point -> Point -> number) (e : Point)
    (sorted : list Point) : list Point :=
  match sorted with
  | [] => [e]
  | h :: rest =>
      if comparefn e h <? 0 then e :: h :: rest
      else h :: sortInsert comparefn e rest
  end.

Definition sortPoints (comparefn : Point -> Point -> number)
    (l : list Point) : list Point :=
  fold_left (fun sorted e => sortInsert comparefn e sorted) l [].

(** The body of [for (const intersect of intersections)]. *)
Definition crossIntersection (stroke : StrokeLine) (st : EraseState)
    (intersect : Point) : EraseState :=
  if (0 <? length (currentLinePoints st))%nat then
    finishLine stroke (pushPoint (pt_x intersect) (pt_y intersect) st)
  else
    pushPoint (pt_x intersect) (pt_y intersect) st.

(** One iteration of [for (i = 2; i < points.length; i += 2)]: the segment
    from [(px, py)] to [(cx, cy)]. *)
Definition eraseSegment (x y eraserRadius : number) (stroke : StrokeLine)
    (px py cx cy : number) (st : EraseState) : EraseState :=
  let p1 := mkPoint px py in
  let p2 := mkPoint cx cy in
  let intersections :=
    getSegmentCircleIntersections p1 p2 (mkPoint x y) eraserRadius in
  if (length intersections =? 0)%nat then
    if negb (isPointInCircle cx cy x y eraserRadius) then pushPoint cx cy st
    else finishLine stroke st
  else
    let sorted :=
      sortPoints (fun a b => distSq p1 a - distSq p1 b) intersections in
    let st := fold_left (crossIntersection stroke) sorted st in
    if negb (isPointInCircle cx cy x y eraserRadius) then pushPoint cx cy st
    else st.

(** The loop over the segments, run on the part of [points] that starts at
    index [i]; [(px, py)] is the previous point. *)
Fixpoint eraseSegments (x y eraserRadius : number) (stroke : StrokeLine)
    (px py : number) (rest : list number) (st : EraseState) : EraseState :=
  match rest with
  | [] => st
  | [cx] =>
      eraseSegment x y eraserRadius stroke px py cx nan st
  | cx :: cy :: rest' =>
      eraseSegments x y eraserRadius stroke cx cy rest'
        (eraseSegment x y eraserRadius stroke px py cx cy st)
  end.

(** The state before the loop over the segments: [currentLinePoints] is
    seeded with the first point unless [isPointInCircle] holds of it. *)
Definition startLine (x y eraserRadius : number) (result0 : list StrokeLine)
    (stroke : StrokeLine) : EraseState :=
  let px := getNum (points stroke) 0 in
  let py := getNum (points stroke) 1 in
  let st := mkEraseState result0 [] 0 in
  if negb (isPointInCircle px py x y eraserRadius) then pushPoint px py st
  else st.

(** The body of [for (const stroke of strokes)], from the collection built
    so far to the collection after this stroke. *)
Definition eraseStroke (x y eraserRadius : number)
    (result0 : list StrokeLine) (stroke : StrokeLine) : list StrokeLine :=
  let points := points stroke in
  if (length points <? 4)%nat then result0 ++ [stroke]
  else
    let px := getNum points 0 in
    let py := getNum points 1 in
    let st := startLine x y eraserRadius result0 stroke in
    let st := eraseSegments x y eraserRadius stroke px py (drop 2 points) st in
    result (finishLine stroke st).

Definition eraseAtPosition (x y : number) (strokes : list StrokeLine)
    (eraserRadius : number) : list StrokeLine :=
  fold_left (eraseStroke x y eraserRadius) strokes [].

(** ** The component's state and pointer handlers *)

(** The [useState] cells of [Whiteboard]. *)
Record Whiteboard := mkWhiteboard {
  lines : list StrokeLine;
  isDrawing : bool;
  brushSize : number;
  strokeColor : string;
  activeTool : ToolType;
  eraserMode : EraserMode;
  eraserSize : number;
  cursorPos : option Point
}.

Definition setLines (l : list StrokeLine) (w : Whiteboard) : Whiteboard :=
  mkWhiteboard l (isDrawing w) (brushSize w) (strokeColor w) (activeTool w)
    (eraserMode w) (eraserSize w) (cursorPos w).

Definition setIsDrawing (b : bool) (w : Whiteboard) : Whiteboard :=
  mkWhiteboard (lines w) b (brushSize w) (strokeColor w) (activeTool w)
    (eraserMode w) (eraserSize w) (cursorPos w).

Definition setCursorPos (c : option Point) (w : Whiteboard) : Whiteboard :=
  mkWhiteboard (lines w) (isDrawing w) (brushSize w) (strokeColor w)
    (activeTool w) (eraserMode w) (eraserSize w) c.

Definition isEraser (t : ToolType) : bool :=
  match t with Eraser => true | Pen => false end.

(** [if (hitId)] on a [string | null]: [null] and the empty string are
    falsy. *)
Definition truthy (hitId : option string) : option string :=
  match hitId with
  | Some h => if decide (h = "") then None else Some h
  | None => None
  end.

(** [findStrokeAtPosition] followed by
    [lines.filter((line) => line.id !== hitId)], the stroke-eraser branch of
    both pointer handlers. *)
Definition eraseWholeStroke (pos : Point) (eraserSize : number)
    (lines : list StrokeLine) : list StrokeLine :=
  let hitId := findStrokeAtPosition (pt_x pos) (pt_y pos) lines (eraserSize / 2) in
  match truthy hitId with
  | Some hitId => filter (fun line => id line <> hitId) lines
  | None => lines
  end.

(** [handlePointerDown]; [pos] is [stage?.getPointerPosition()] and [now]
    is [Date.now()]. *)
Definition handlePointerDown (pos : option Point) (now : N) (w : Whiteboard)
  : Whiteboard :=
  match pos with
  | None => w
  | Some pos =>
      match activeTool w with
      | Eraser =>
          match eraserMode w with
          | StrokeMode =>
              setLines (eraseWholeStroke pos (eraserSize w) (lines w)) w
          | PartialMode =>
              setLines
                (eraseAtPosition (pt_x pos) (pt_y pos) (lines w) (eraserSize w / 2))
                w
          end
      | Pen =>
          setLines
            (lines w ++
               [mkStrokeLine ("stroke-" +:+ showN now) [pt_x pos; pt_y pos]
                             (strokeColor w) (brushSize w)])
            (setIsDrawing true w)
      end
  end.

(** The updater [setLines((prevLines) => ...)] of the drawing branch of
    [handlePointerMove]. *)
Definition appendSample (pos : Point) (prevLines : list StrokeLine)
  : list StrokeLine :=
  match last prevLines with
  | None => prevLines
  | Some lastLine =>
      let points := points lastLine in
      let lastX := getNum points (Z.of_nat (length points) - 2) in
      let lastY := getNum points (Z.of_nat (length points) - 1) in
      let dx := pt_x pos - lastX in
      let dy := pt_y pos - lastY in
      let distance := sqrt (dx * dx + dy * dy) in
      if distance <? MIN_POINT_DISTANCE then prevLines
      else
        let updatedLine :=
          mkStrokeLine (id lastLine) (points ++ [pt_x pos; pt_y pos])
                       (color lastLine) (strokeWidth lastLine) in
        take (length prevLines - 1) prevLines ++ [updatedLine]
  end.

(** [handlePointerMove]; [buttons] is [e.evt.buttons].  The handler reads
    [lines] from the render it was created in; the model takes it to be the
    current collection. *)
Definition handlePointerMove (pos : option Point) (buttons : Z)
    (w : Whiteboard) : Whiteboard :=
  match pos with
  | None => w
  | Some pos =>
      let w :=
        setCursorPos (if isEraser (activeTool w) then Some pos else None) w in
      if isEraser (activeTool w) && (buttons =? 1)%Z then
        match eraserMode w with
        | StrokeMode =>
            setLines (eraseWholeStroke pos (eraserSize w) (lines w)) w
        | PartialMode =>
            setLines
              (eraseAtPosition (pt_x pos) (pt_y pos) (lines w) (eraserSize w / 2))
              w
        end
      else if negb (isDrawing w) then w
      else setLines (appendSample pos (lines w)) w
  end.

Definition handlePointerUp (w : Whiteboard) : Whiteboard :=
  setIsDrawing false w.

(** The state [Whiteboard()] starts from. *)
Definition initialWhiteboard : Whiteboard :=
  mkWhiteboard [] false DEFAULT_BRUSH_SIZE DEFAULT_STROKE_COLOR Pen StrokeMode
    DEFAULT_ERASER_SIZE None.

(** * Vocabulary of the statements

    Predicates and helper functions the theorems are stated with. *)

(** ** Partial erase *)

(** The strokes one stroke contributes to the result of [eraseAtPosition]. *)
Definition fragmentsOf (x y eraserRadius : number) (stroke : StrokeLine)
  : list StrokeLine :=
  eraseStroke x y eraserRadius [] stroke.

(** A point array that lists whole points. *)
Definition wholePoints (pts : list number) : bool := Nat.even (length pts).

(** [P] holds of every point of the array, read two numbers at a time as
    the loops do. *)
Fixpoint allPoints (P : number -> number -> bool) (pts : list number) : bool :=
  match pts with
  | [] => true
  | [a] => P a nan
  | a :: b :: rest => P a b && allPoints P rest
  end.

Definition allInside (x y r : number) (pts : list number) : bool :=
  allPoints (fun a b => isPointInCircle a b x y r) pts.

Definition allOutside (x y r : number) (pts : list number) : bool :=
  allPoints (fun a b => negb (isPointInCircle a b x y r)) pts.

(** [getSegmentCircleIntersections] finds no intersection on any segment of
    the polyline that starts at [(px, py)] and goes on through [rest]. *)
Fixpoint noCrossingFrom (x y r px py : number) (rest : list number) : bool :=
  match rest with
  | [] => true
  | [cx] =>
      (length (getSegmentCircleIntersections
                 (mkPoint px py) (mkPoint cx nan) (mkPoint x y) r) =? 0)%nat
  | cx :: cy :: rest' =>
      (length (getSegmentCircleIntersections
                 (mkPoint px py) (mkPoint cx cy) (mkPoint x y) r) =? 0)%nat
      && noCrossingFrom x y r cx cy rest'
  end.

Definition noCrossing (x y r : number) (pts : list number) : bool :=
  noCrossingFrom x y r (getNum pts 0) (getNum pts 1) (drop 2 pts).

(** A stroke that came through a partial erase without being cut: short
    strokes are passed on as they are, the others are re-emitted as their
    fragment number 0. *)
Definition passedThrough (stroke : StrokeLine) : StrokeLine :=
  if (length (points stroke) <? 4)%nat then stroke
  else mkStrokeLine (id stroke +:+ "-0") (points stroke)
                    (color stroke) (strokeWidth stroke).

(** The points of a flat array, read two numbers at a time as the loops
    do. *)
Fixpoint pointsOf (pts : list number) : list Point :=
  match pts with
  | [] => []
  | [a] => [mkPoint a nan]
  | a :: b :: rest => mkPoint a b :: pointsOf rest
  end.

(** The intersections of the segment from [p1] to [p2] with the eraser
    circle, in the order [eraseSegment] visits them. *)
Definition sortedCuts (x y r : number) (p1 p2 : Point) : list Point :=
  sortPoints (fun a b => distSq p1 a - distSq p1 b)
    (getSegmentCircleIntersections p1 p2 (mkPoint x y) r).

(** The polyline as the eraser walks it: every point of the stroke, in
    order, each preceded by the cuts of the segment that leads to it. *)
Fixpoint traversalFrom (x y r px py : number) (rest : list number)
  : list Point :=
  match rest with
  | [] => []
  | [cx] =>
      sortedCuts x y r (mkPoint px py) (mkPoint cx nan) ++ [mkPoint cx nan]
  | cx :: cy :: rest' =>
      sortedCuts x y r (mkPoint px py) (mkPoint cx cy)
      ++ mkPoint cx cy :: traversalFrom x y r cx cy rest'
  end.

Definition traversal (x y r : number) (pts : list number) : list Point :=
  mkPoint (getNum pts 0) (getNum pts 1)
  :: traversalFrom x y r (getNum pts 0) (getNum pts 1) (drop 2 pts).

(** What every fragment number [k] cut from [stroke] must look like, [walk]
    being the part of the polyline walked so far. *)
Definition fragmentOk (stroke : StrokeLine) (walk : list Point) (k : nat)
    (f : StrokeLine) : Prop :=
  id f = id stroke +:+ "-" +:+ showNat k /\
  color f = color stroke /\
  strokeWidth f = strokeWidth stroke /\
  4 <= length (points f) /\
  Nat.even (length (points f)) = true /\
  pointsOf (points f) `sublist_of` walk.

(** The invariant of the loop over the segments of [stroke]. *)
Definition eraseInv (stroke : StrokeLine) (walk : list Point)
    (st : EraseState) : Prop :=
  length (result st) = segmentCount st /\
  (forall k f, result st !! k = Some f -> fragmentOk stroke walk k f) /\
  Nat.even (length (currentLinePoints st)) = true /\
  pointsOf (currentLinePoints st) `sublist_of` walk.

(** The character of the separator ["-"] of fragment identifiers. *)
Definition dash : Ascii.ascii := Eval cbv in Ascii.ascii_of_nat 45.

(** The string contains a ["-"]. *)
Fixpoint hasDash (s : string) : bool :=
  match s with
  | EmptyString => false
  | String c s' => Ascii.eqb c dash || hasDash s'
  end.

(** An [EraseState] with the strokes [r0] collected before it. *)
Definition prepend (r0 : list StrokeLine) (st : EraseState) : EraseState :=
  mkEraseState (r0 ++ result st) (currentLinePoints st) (segmentCount st).

(** ** Hit test *)

(** Number of iterations of [for (j = 0; j < points.length - 2; j += 2)]. *)
Definition segmentCountOf (pts : list number) : nat :=
  ((length pts - 1) / 2)%nat.

(** The test of iteration [j = 2 * k]: the clamped distance from [(x, y)] to
    the segment from point [k] to point [k + 1] is at most [threshold]. *)
Definition segmentWithin (x y : number) (pts : list number)
    (threshold : number) (k : nat) : bool :=
  let j := Z.of_nat (2 * k) in
  pointToSegmentDistance x y
    (getNum pts j) (getNum pts (j + 1)) (getNum pts (j + 2)) (getNum pts (j + 3))
  <=? threshold.

(** Some segment of the stroke is within [hitRadius + strokeWidth / 2] of
    [(x, y)]. *)
Definition strokeHit (x y hitRadius : number) (s : StrokeLine) : bool :=
  existsb (segmentWithin x y (points s) (hitRadius + strokeWidth s / 2))
          (seq 0 (segmentCountOf (points s))).

(** The distance of the hit test as its description words it: the query is
    projected on the line of the segment, the parameter of the projection
    is clamped to [[0, 1]], and the distance is taken to the point of the
    segment at the clamped parameter.  Written from the description, with
    the clamp as two comparisons, for comparison with
    [pointToSegmentDistance]. *)
Definition projectionParameter (px py x1 y1 x2 y2 : number) : number :=
  ((px - x1) * (x2 - x1) + (py - y1) * (y2 - y1))
  / ((x2 - x1) * (x2 - x1) + (y2 - y1) * (y2 - y1)).

Definition clampUnit (t : number) : number :=
  if t <=? 0 then 0 else if 1 <=? t then 1 else t.

Definition euclideanDistance (ax ay bx by_ : number) : number :=
  sqrt ((ax - bx) * (ax - bx) + (ay - by_) * (ay - by_)).

Definition clampedSegmentDistance (px py x1 y1 x2 y2 : number) : number :=
  if (x2 - x1) * (x2 - x1) + (y2 - y1) * (y2 - y1) =? 0
  then euclideanDistance px py x1 y1
  else
    let t := clampUnit (projectionParameter px py x1 y1 x2 y2) in
    euclideanDistance px py (x1 + t * (x2 - x1)) (y1 + t * (y2 - y1)).

(** Segment [k] of the stroke, from point [k] to point [k + 1], is within
    [threshold] of [(x, y)] in the clamped distance of the description. *)
Definition withinClampedDistance (x y : number) (pts : list number)
    (threshold : number) (k : nat) : bool :=
  let j := Z.of_nat (2 * k) in
  clampedSegmentDistance x y
    (getNum pts j) (getNum pts (j + 1)) (getNum pts (j + 2)) (getNum pts (j + 3))
  <=? threshold.

(** ** Classes of binary64 values, on their [SpecFloat] image *)

(** [x] is a number (not NaN) whose sign bit is [s]. *)
Definition SFsigned (s : bool) (x : spec_float) : Prop :=
  match x with
  | S754_nan => False
  | S754_zero s' | S754_infinity s' | S754_finite s' _ _ => s' = s
  end.

Definition SFnumber (x : spec_float) : Prop := x <> S754_nan.

Definition SFfinite (x : spec_float) : Prop :=
  match x with S754_zero _ | S754_finite _ _ _ => True | _ => False end.

(** ** Further vocabulary: survivors, well-formed collections, identifiers *)

(** The walk along the polyline without the stroke points that
    [isPointInCircle] places inside the eraser circle. *)
Fixpoint survivorsFrom (x y r px py : number) (rest : list number)
  : list Point :=
  match rest with
  | [] => []
  | [cx] =>
      sortedCuts x y r (mkPoint px py) (mkPoint cx nan)
      ++ (if isPointInCircle cx nan x y r then [] else [mkPoint cx nan])
  | cx :: cy :: rest' =>
      sortedCuts x y r (mkPoint px py) (mkPoint cx cy)
      ++ (if isPointInCircle cx cy x y r then [] else [mkPoint cx cy])
      ++ survivorsFrom x y r cx cy rest'
  end.

Definition survivors (x y r : number) (pts : list number) : list Point :=
  (if isPointInCircle (getNum pts 0) (getNum pts 1) x y r then []
   else [mkPoint (getNum pts 0) (getNum pts 1)])
  ++ survivorsFrom x y r (getNum pts 0) (getNum pts 1) (drop 2 pts).

(** [p] is a point of the stroke that [isPointInCircle] places outside the
    eraser circle. *)
Definition keptPointOf (x y r : number) (pts : list number) (p : Point)
  : Prop :=
  p ∈ pointsOf pts /\ isPointInCircle (pt_x p) (pt_y p) x y r = false.

(** [p] is an intersection that [getSegmentCircleIntersections] computes
    for the segment between two consecutive points of the stroke. *)
Definition cutOf (x y r : number) (pts : list number) (p : Point) : Prop :=
  exists (k : nat) (a b : Point),
    pointsOf pts !! k = Some a /\ pointsOf pts !! S k = Some b /\
    p ∈ getSegmentCircleIntersections a b (mkPoint x y) r.

(** The invariant of the loop over the segments behind [survivors]. *)
Definition keptInv (walk : list Point) (st : EraseState) : Prop :=
  Forall (fun f => pointsOf (points f) `sublist_of` walk) (result st) /\
  Nat.even (length (currentLinePoints st)) = true /\
  pointsOf (currentLinePoints st) `sublist_of` walk.

(** A stroke whose array lists at least one point and only whole points. *)
Definition wellFormedStroke (s : StrokeLine) : Prop :=
  Nat.even (length (points s)) = true /\ 2 <= length (points s).

(** Number of ["-"] in a string. *)
Fixpoint dashCount (s : string) : nat :=
  match s with
  | EmptyString => 0%nat
  | String c s' => ((if Ascii.eqb c dash then 1 else 0) + dashCount s')%nat
  end.

(** The identifiers of a collection are pairwise distinct, each holds a
    ["-"], and a stroke of fewer than 2 points holds exactly one (it still
    carries the identifier it was created with). *)
Definition idsOk (strokes : list StrokeLine) : Prop :=
  NoDup (id <$> strokes) /\
  Forall (fun s => 1 <= dashCount (id s) /\
                   (length (points s) < 4 -> dashCount (id s) = 1%nat)) strokes.

(** A binary64 value that is zero or has sign bit 0, on its [SpecFloat]
    image; NaN is let through. *)
Definition SFnotNegative (x : spec_float) : Prop :=
  match x with
  | S754_infinity s | S754_finite s _ _ => s = false
  | _ => True
  end.

(** A binary64 value with sign bit [s] that is neither a zero nor NaN, on
    its [SpecFloat] image. *)
Definition SFstrict (s : bool) (x : spec_float) : Prop :=
  match x with
  | S754_infinity s' | S754_finite s' _ _ => s' = s
  | _ => False
  end.

(** The number is one of the two zeros. *)
Definition isZeroNum (v : number) : Prop := v = 0 \/ v = neg_zero.

(** The points of all the strokes of a list, one stroke after the other. *)
Definition allPointsOf (strokes : list StrokeLine) : list Point :=
  flat_map (fun f => pointsOf (points f)) strokes.

(** The invariant of the loop over the segments behind the order of the
    fragments: the fragments made so far and then the current line, end to
    end, follow the walk. *)
Definition orderInv (walk : list Point) (st : EraseState) : Prop :=
  Nat.even (length (currentLinePoints st)) = true /\
  (allPointsOf (result st) ++ pointsOf (currentLinePoints st))
    `sublist_of` walk.

(** * Facts about binary64 arithmetic

    Derived from the specification of the primitive operations
    ([FloatAxioms]) over [SpecFloat]. *)

Section FloatFacts.

Lemma SFcompare_refl (x : spec_float) :
  x <> S754_nan -> SFcompare x x = Some Eq.
Proof.
  destruct x as [s|s| |s m e]; simpl; try congruence; intros _.
  - now destruct s.
  - destruct s; rewrite Z.compare_refl, Pos.compare_cont_refl; reflexivity.
Qed.

Lemma SFcompare_antisym (x y : spec_float) :
  SFcompare y x = option_map CompOpp (SFcompare x y).
Proof.
  destruct x as [sx|sx| |sx mx ex], y as [sy|sy| |sy my ey]; simpl;
    try reflexivity; try (destruct sx; reflexivity);
    try (destruct sy; reflexivity); try (destruct sx, sy; reflexivity).
  pose proof (Pos.compare_cont_antisym mx my Eq) as H; simpl in H.
  destruct sx, sy; simpl; try reflexivity;
    rewrite (Z.compare_antisym ex ey);
    destruct (ex ?= ey)%Z; simpl; try reflexivity;
    rewrite H; destruct (Pos.compare_cont Eq my mx); reflexivity.
Qed.

Lemma is_nan_Prim2SF (v : number) :
  is_nan v = true <-> Prim2SF v = S754_nan.
Proof.
  unfold is_nan. rewrite FloatAxioms.eqb_spec. unfold SFeqb. split.
  - destruct (Prim2SF v) eqn:E; try reflexivity;
      rewrite SFcompare_refl by congruence; discriminate.
  - intros ->. reflexivity.
Qed.

Lemma not_nan_Prim2SF (v : number) :
  is_nan v = false <-> Prim2SF v <> S754_nan.
Proof.
  split.
  - intros H N. apply is_nan_Prim2SF in N. congruence.
  - intros H. destruct (is_nan v) eqn:E; [|reflexivity].
    exfalso. now apply H, is_nan_Prim2SF.
Qed.

Lemma is_nan_eq (v : number) : is_nan v = true <-> v = nan.
Proof.
  rewrite is_nan_Prim2SF. split.
  - intros H. apply Prim2SF_inj. rewrite H. reflexivity.
  - intros ->. reflexivity.
Qed.

(** On numbers that are not NaN, [a < b] is the negation of [b <= a]. *)
Lemma ltb_negb_leb (a b : number) :
  is_nan a = false -> is_nan b = false -> (a <? b) = negb (b <=? a).
Proof.
  intros Ha%not_nan_Prim2SF Hb%not_nan_Prim2SF.
  rewrite FloatAxioms.ltb_spec, FloatAxioms.leb_spec. unfold SFltb, SFleb.
  rewrite (SFcompare_antisym (Prim2SF a) (Prim2SF b)).
  destruct (SFcompare (Prim2SF a) (Prim2SF b)) as [[]|] eqn:E; simpl;
    try reflexivity.
  exfalso.
  destruct (Prim2SF a), (Prim2SF b); simpl in E; try discriminate; congruence.
Qed.

(** Every comparison with NaN is false. *)
Lemma leb_nan_l (v : number) : (nan <=? v) = false.
Proof. rewrite FloatAxioms.leb_spec. reflexivity. Qed.

Lemma ltb_nan_l (v : number) : (nan <? v) = false.
Proof. rewrite FloatAxioms.ltb_spec. reflexivity. Qed.

Lemma eqb_nan_l (v : number) : (nan =? v) = false.
Proof. rewrite FloatAxioms.eqb_spec. reflexivity. Qed.

(** NaN is absorbing for the arithmetic operations. *)
Lemma sub_nan_r (v : number) : v - nan = nan.
Proof.
  apply Prim2SF_inj. rewrite FloatAxioms.sub_spec.
  change (Prim2SF nan) with S754_nan. now destruct (Prim2SF v).
Qed.

Lemma sub_nan_l (v : number) : nan - v = nan.
Proof. apply Prim2SF_inj. rewrite FloatAxioms.sub_spec. reflexivity. Qed.

Lemma add_nan_r (v : number) : v + nan = nan.
Proof.
  apply Prim2SF_inj. rewrite FloatAxioms.add_spec.
  change (Prim2SF nan) with S754_nan. now destruct (Prim2SF v).
Qed.

Lemma add_nan_l (v : number) : nan + v = nan.
Proof. apply Prim2SF_inj. rewrite FloatAxioms.add_spec. reflexivity. Qed.

Lemma mul_nan_r (v : number) : v * nan = nan.
Proof.
  apply Prim2SF_inj. rewrite FloatAxioms.mul_spec.
  change (Prim2SF nan) with S754_nan. now destruct (Prim2SF v).
Qed.

Lemma mul_nan_l (v : number) : nan * v = nan.
Proof. apply Prim2SF_inj. rewrite FloatAxioms.mul_spec. reflexivity. Qed.

Lemma div_nan_r (v : number) : v / nan = nan.
Proof.
  apply Prim2SF_inj. rewrite FloatAxioms.div_spec.
  change (Prim2SF nan) with S754_nan. now destruct (Prim2SF v).
Qed.

Lemma sqrt_nan : sqrt nan = nan.
Proof. reflexivity. Qed.

Lemma SFsigned_number s x : SFsigned s x -> SFnumber x.
Proof. destruct x; simpl; unfold SFnumber; congruence || tauto. Qed.

Lemma shr_1_nonneg mrs : (0 <= shr_m mrs)%Z -> (0 <= shr_m (shr_1 mrs))%Z.
Proof.
  destruct mrs as [m r s]; simpl.
  destruct m as [|[p|p|]|[p|p|]]; simpl; lia.
Qed.

Lemma iter_pos_nonneg p mrs :
  (0 <= shr_m mrs)%Z -> (0 <= shr_m (SpecFloat.iter_pos shr_1 p mrs))%Z.
Proof.
  revert mrs. induction p as [p IH|p IH|]; intros mrs H; simpl.
  - apply IH, IH, shr_1_nonneg, H.
  - apply IH, IH, H.
  - apply shr_1_nonneg, H.
Qed.

Lemma shr_fexp_nonneg m e l :
  (0 <= m)%Z -> (0 <= shr_m (fst (shr_fexp prec emax m e l)))%Z.
Proof.
  intros H. unfold shr_fexp, shr.
  assert (0 <= shr_m (shr_record_of_loc m l))%Z as H0
    by (destruct l as [|[]]; exact H).
  destruct (_ - e)%Z; simpl; try exact H0.
  apply iter_pos_nonneg, H0.
Qed.

Lemma round_nearest_even_nonneg m l :
  (0 <= m)%Z -> (0 <= round_nearest_even m l)%Z.
Proof.
  intros H. destruct l as [|[]]; simpl; try lia.
  destruct (Z.even m); lia.
Qed.

Lemma binary_round_aux_signed s m e l :
  (0 <= m)%Z -> SFsigned s (binary_round_aux prec emax s m e l).
Proof.
  intros H. unfold binary_round_aux.
  pose proof (shr_fexp_nonneg m e l H) as H1.
  destruct (shr_fexp prec emax m e l) as [mrs' e'] eqn:E1. simpl in H1.
  pose proof (shr_fexp_nonneg _ e' loc_Exact
                (round_nearest_even_nonneg _ (loc_of_shr_record mrs') H1)) as H2.
  destruct (shr_fexp prec emax _ e' loc_Exact) as [mrs'' e''] eqn:E2.
  simpl in H2.
  destruct (shr_m mrs'') as [|q|q]; simpl; try reflexivity; try lia.
  destruct (e'' <=? _)%Z; reflexivity.
Qed.

Lemma binary_round_signed s m e : SFsigned s (binary_round prec emax s m e).
Proof.
  unfold binary_round. destruct (shl_align _ _ _) as [mz ez].
  apply binary_round_aux_signed. lia.
Qed.

Lemma binary_normalize_number m e szero :
  SFnumber (binary_normalize prec emax m e szero).
Proof.
  destruct m; simpl; [discriminate| |];
    eapply SFsigned_number, binary_round_signed.
Qed.

Lemma SFsub_finite x y : SFfinite x -> SFfinite y -> SFnumber (SF64sub x y).
Proof.
  destruct x as [sx|sx| |sx mx ex], y as [sy|sy| |sy my ey]; simpl;
    try tauto; intros _ _; unfold SFnumber; try discriminate.
  - destruct sx, sy; discriminate.
  - apply binary_normalize_number.
Qed.

Lemma SFmul_self x : SFnumber x -> SFsigned false (SF64mul x x).
Proof.
  destruct x as [s|s| |s m e]; simpl; unfold SFnumber; try congruence;
    intros _; try (now destruct s).
  replace (xorb s s) with false by (now destruct s).
  apply binary_round_aux_signed. lia.
Qed.

Lemma SFadd_nonneg x y :
  SFsigned false x -> SFsigned false y -> SFsigned false (SF64add x y).
Proof.
  destruct x as [sx|sx| |sx mx ex], y as [sy|sy| |sy my ey]; simpl;
    try tauto; intros -> ->; simpl; try reflexivity.
  destruct (shl_align mx ex _) as [a b], (shl_align my ey _) as [c d]; simpl.
  apply binary_round_signed.
Qed.

Lemma SFsqrt_nonneg x : SFsigned false x -> SFsigned false (SF64sqrt x).
Proof.
  destruct x as [s|s| |s m e]; simpl; try tauto; intros ->; simpl;
    try reflexivity.
  unfold SFsqrt_core_binary.
  match goal with |- context [Z.sqrtrem ?v] =>
    pose proof (Z.sqrtrem_sqrt v) as Hq; pose proof (Z.sqrt_nonneg v) as Hn;
    destruct (Z.sqrtrem v) as [q r] end.
  simpl in Hq. subst q. apply binary_round_aux_signed, Hn.
Qed.

Lemma is_finite_Prim2SF (v : number) :
  is_finite v = true -> SFfinite (Prim2SF v).
Proof.
  unfold is_finite, is_infinity. rewrite negb_true_iff, orb_false_iff.
  intros [Hn Hi]. apply not_nan_Prim2SF in Hn.
  rewrite FloatAxioms.eqb_spec, abs_spec in Hi.
  destruct (Prim2SF v) as [s|s| |s m e]; simpl; try tauto.
  discriminate.
Qed.

(** For finite coordinates the squared distance, and its square root,
    are numbers. *)
Lemma sq_dist_number (x1 y1 x2 y2 : number) :
  is_finite x1 = true -> is_finite y1 = true ->
  is_finite x2 = true -> is_finite y2 = true ->
  SFsigned false (Prim2SF ((x1 - x2) * (x1 - x2) + (y1 - y2) * (y1 - y2))).
Proof.
  intros H1 H2 H3 H4.
  rewrite FloatAxioms.add_spec, !FloatAxioms.mul_spec, !FloatAxioms.sub_spec.
  apply SFadd_nonneg; apply SFmul_self, SFsub_finite;
    now apply is_finite_Prim2SF.
Qed.

Lemma sqrt_sq_dist_not_nan (x1 y1 x2 y2 : number) :
  is_finite x1 = true -> is_finite y1 = true ->
  is_finite x2 = true -> is_finite y2 = true ->
  is_nan (sqrt ((x1 - x2) * (x1 - x2) + (y1 - y2) * (y1 - y2))) = false.
Proof.
  intros H1 H2 H3 H4. apply not_nan_Prim2SF. rewrite sqrt_spec.
  eapply SFsigned_number, SFsqrt_nonneg, sq_dist_number; assumption.
Qed.

Lemma sq_dist_not_nan (x1 y1 x2 y2 : number) :
  is_finite x1 = true -> is_finite y1 = true ->
  is_finite x2 = true -> is_finite y2 = true ->
  is_nan ((x1 - x2) * (x1 - x2) + (y1 - y2) * (y1 - y2)) = false.
Proof.
  intros H1 H2 H3 H4. apply not_nan_Prim2SF.
  eapply SFsigned_number, sq_dist_number; assumption.
Qed.

Lemma sq_not_nan (v : number) : is_nan v = false -> is_nan (v * v) = false.
Proof.
  intros H%not_nan_Prim2SF. apply not_nan_Prim2SF.
  rewrite FloatAxioms.mul_spec. eapply SFsigned_number, SFmul_self, H.
Qed.

End FloatFacts.

(** * The partial eraser *)

Section EraseLoop.

Variables x y eraserRadius : number.
Variable stroke : StrokeLine.

Lemma pushPoint_prepend r0 a b st :
  pushPoint a b (prepend r0 st) = prepend r0 (pushPoint a b st).
Proof. reflexivity. Qed.

Lemma finishLine_prepend r0 st :
  finishLine stroke (prepend r0 st) = prepend r0 (finishLine stroke st).
Proof.
  destruct st as [res cur n]. unfold finishLine, prepend.
  cbn [result currentLinePoints segmentCount].
  destruct (4 <=? length cur)%nat; cbn [result currentLinePoints segmentCount];
    [rewrite app_assoc|]; reflexivity.
Qed.

Lemma crossIntersection_prepend r0 st i :
  crossIntersection stroke (prepend r0 st) i
  = prepend r0 (crossIntersection stroke st i).
Proof.
  unfold crossIntersection.
  change (currentLinePoints (prepend r0 st)) with (currentLinePoints st).
  destruct (0 <? length (currentLinePoints st))%nat.
  - now rewrite pushPoint_prepend, finishLine_prepend.
  - now rewrite pushPoint_prepend.
Qed.

Lemma fold_crossIntersection_prepend r0 l st :
  fold_left (crossIntersection stroke) l (prepend r0 st)
  = prepend r0 (fold_left (crossIntersection stroke) l st).
Proof.
  revert st. induction l as [|i l IH]; intros st; simpl; [reflexivity|].
  now rewrite crossIntersection_prepend, IH.
Qed.

Lemma eraseSegment_prepend r0 px py cx cy st :
  eraseSegment x y eraserRadius stroke px py cx cy (prepend r0 st)
  = prepend r0 (eraseSegment x y eraserRadius stroke px py cx cy st).
Proof.
  unfold eraseSegment.
  destruct (length _ =? 0)%nat.
  - destruct (negb _);
      [apply pushPoint_prepend | apply finishLine_prepend].
  - rewrite fold_crossIntersection_prepend.
    destruct (negb _); [apply pushPoint_prepend | reflexivity].
Qed.

Lemma eraseSegments_prepend r0 rest px py st :
  eraseSegments x y eraserRadius stroke px py rest (prepend r0 st)
  = prepend r0 (eraseSegments x y eraserRadius stroke px py rest st).
Proof.
  revert px py st.
  induction rest as [rest IH] using (induction_ltof1 _ (@length number)).
  unfold ltof in IH. intros px py st.
  destruct rest as [|cx [|cy rest']]; simpl.
  - reflexivity.
  - apply eraseSegment_prepend.
  - rewrite eraseSegment_prepend. apply IH. simpl. lia.
Qed.

Lemma startLine_prepend r0 :
  startLine x y eraserRadius r0 stroke
  = prepend r0 (startLine x y eraserRadius [] stroke).
Proof.
  unfold startLine, prepend, pushPoint.
  destruct (negb _); cbn [result currentLinePoints segmentCount];
    now rewrite app_nil_r.
Qed.

End EraseLoop.

Lemma eraseStroke_app x y r result0 stroke :
  eraseStroke x y r result0 stroke = result0 ++ fragmentsOf x y r stroke.
Proof.
  unfold fragmentsOf, eraseStroke.
  destruct (length (points stroke) <? 4)%nat; [reflexivity|].
  rewrite startLine_prepend, eraseSegments_prepend, finishLine_prepend.
  reflexivity.
Qed.

Lemma eraseAtPosition_fold x y r strokes result0 :
  fold_left (eraseStroke x y r) strokes result0
  = result0 ++ flat_map (fragmentsOf x y r) strokes.
Proof.
  revert result0. induction strokes as [|s strokes IH]; intros result0; simpl.
  - now rewrite app_nil_r.
  - rewrite IH, eraseStroke_app, <- app_assoc. reflexivity.
Qed.

(** [eraseAtPosition] treats the strokes one by one, in order. *)
Lemma eraseAtPosition_flat_map x y strokes r :
  eraseAtPosition x y strokes r = flat_map (fragmentsOf x y r) strokes.
Proof. unfold eraseAtPosition. now rewrite eraseAtPosition_fold. Qed.

Lemma eraseAtPosition_split x y r before stroke after :
  eraseAtPosition x y (before ++ stroke :: after) r
  = eraseAtPosition x y before r ++ fragmentsOf x y r stroke
    ++ eraseAtPosition x y after r.
Proof.
  rewrite !eraseAtPosition_flat_map, flat_map_app. reflexivity.
Qed.

Lemma fragmentsOf_short x y r s :
  length (points s) < 4 -> fragmentsOf x y r s = [s].
Proof.
  intros H. unfold fragmentsOf, eraseStroke.
  destruct (Nat.ltb_spec (length (points s)) 4); [reflexivity|lia].
Qed.

Lemma fragmentsOf_long x y r s :
  4 <= length (points s) ->
  fragmentsOf x y r s
  = result (finishLine s
      (eraseSegments x y r s (getNum (points s) 0) (getNum (points s) 1)
         (drop 2 (points s)) (startLine x y r [] s))).
Proof.
  intros H. unfold fragmentsOf, eraseStroke.
  destruct (Nat.ltb_spec (length (points s)) 4); [lia|reflexivity].
Qed.

(** Over segments without a computed intersection whose end points are all
    outside, the loop copies the points into the current line. *)
Lemma eraseSegments_outside x y r s rest :
  forall px py res run n,
  Nat.even (length rest) = true ->
  noCrossingFrom x y r px py rest = true ->
  allOutside x y r rest = true ->
  eraseSegments x y r s px py rest (mkEraseState res run n)
  = mkEraseState res (run ++ rest) n.
Proof.
  induction rest as [rest IH] using (induction_ltof1 _ (@length number)).
  unfold ltof in IH. intros px py res run n Hev Hno Hout.
  destruct rest as [|cx [|cy rest']].
  - simpl. now rewrite app_nil_r.
  - discriminate Hev.
  - cbn [eraseSegments].
    cbn [noCrossingFrom] in Hno. apply andb_true_iff in Hno as [Hno1 Hno2].
    unfold allOutside in Hout. cbn [allPoints] in Hout.
    apply andb_true_iff in Hout as [Hout1 Hout2].
    unfold eraseSegment. rewrite Hno1, Hout1. unfold pushPoint.
    cbn [result currentLinePoints segmentCount].
    rewrite IH; [|simpl; lia|exact Hev|exact Hno2|exact Hout2].
    now rewrite <- app_assoc.
Qed.

(** Over segments without a computed intersection whose end points are all
    inside, the loop leaves the current line empty. *)
Lemma eraseSegments_inside x y r s rest :
  forall px py res n,
  noCrossingFrom x y r px py rest = true ->
  allInside x y r rest = true ->
  eraseSegments x y r s px py rest (mkEraseState res [] n)
  = mkEraseState res [] n.
Proof.
  induction rest as [rest IH] using (induction_ltof1 _ (@length number)).
  unfold ltof in IH. intros px py res n Hno Hin.
  destruct rest as [|cx [|cy rest']].
  - reflexivity.
  - cbn [eraseSegments]. cbn [noCrossingFrom] in Hno.
    unfold allInside in Hin. cbn [allPoints] in Hin.
    unfold eraseSegment. rewrite Hno, Hin. reflexivity.
  - cbn [eraseSegments].
    cbn [noCrossingFrom] in Hno. apply andb_true_iff in Hno as [Hno1 Hno2].
    unfold allInside in Hin. cbn [allPoints] in Hin.
    apply andb_true_iff in Hin as [Hin1 Hin2].
    unfold eraseSegment. rewrite Hno1, Hin1.
    unfold finishLine. cbn [negb result currentLinePoints segmentCount length].
    cbn [Nat.leb]. apply IH; [simpl; lia|exact Hno2|exact Hin2].
Qed.

Lemma fragmentsOf_outside x y r s :
  Nat.even (length (points s)) = true ->
  allOutside x y r (points s) = true ->
  noCrossing x y r (points s) = true ->
  fragmentsOf x y r s = [passedThrough s].
Proof.
  intros Hev Hout Hno. unfold passedThrough.
  destruct (Nat.ltb_spec (length (points s)) 4) as [Hlt|Hge].
  - now apply fragmentsOf_short.
  - rewrite fragmentsOf_long by exact Hge.
    destruct (points s) as [|px [|py rest]] eqn:Epts; try (simpl in Hge; lia).
    unfold startLine. rewrite Epts.
    change (getNum (px :: py :: rest) 0) with px.
    change (getNum (px :: py :: rest) 1) with py.
    change (drop 2 (px :: py :: rest)) with rest.
    unfold allOutside in Hout. cbn [allPoints] in Hout.
    apply andb_true_iff in Hout as [Hout1 Hout2].
    rewrite Hout1. cbn [negb]. unfold pushPoint.
    cbn [result currentLinePoints segmentCount app].
    rewrite (eraseSegments_outside x y r s rest px py [] [px; py] 0);
      [|exact Hev|exact Hno|exact Hout2].
    unfold finishLine. cbn [result currentLinePoints segmentCount].
    destruct (Nat.leb_spec 4 (length ([px; py] ++ rest))) as [_|Hlt];
      [reflexivity|simpl in Hlt, Hge; lia].
Qed.

Lemma fragmentsOf_inside x y r s :
  4 <= length (points s) ->
  allInside x y r (points s) = true ->
  noCrossing x y r (points s) = true ->
  fragmentsOf x y r s = [].
Proof.
  intros Hge Hin Hno.
  rewrite fragmentsOf_long by exact Hge.
  destruct (points s) as [|px [|py rest]] eqn:Epts; try (simpl in Hge; lia).
  unfold startLine. rewrite Epts.
  change (getNum (px :: py :: rest) 0) with px.
  change (getNum (px :: py :: rest) 1) with py.
  change (drop 2 (px :: py :: rest)) with rest.
  unfold allInside in Hin. cbn [allPoints] in Hin.
  apply andb_true_iff in Hin as [Hin1 Hin2].
  rewrite Hin1. cbn [negb].
  rewrite (eraseSegments_inside x y r s rest px py [] 0);
    [reflexivity|exact Hno|exact Hin2].
Qed.

(** * Hit testing *)

(** ** The clamped distance *)

Lemma ltb_leb (a b : number) : (a <? b) = true -> (a <=? b) = true.
Proof.
  rewrite FloatAxioms.ltb_spec, FloatAxioms.leb_spec.
  unfold SFltb, SFleb. now destruct (SFcompare _ _) as [[]|].
Qed.

Lemma leb_not_ltb_eqb (a b : number) :
  (a <=? b) = true -> (a <? b) = false -> (a =? b) = true.
Proof.
  rewrite FloatAxioms.ltb_spec, FloatAxioms.leb_spec, FloatAxioms.eqb_spec.
  unfold SFltb, SFleb, SFeqb. now destruct (SFcompare _ _) as [[]|].
Qed.

Lemma SFcompare_finite_eq s m e (v : spec_float) :
  SFcompare (S754_finite s m e) v = Some Eq -> v = S754_finite s m e.
Proof.
  destruct v as [s'|s'| |s' m' e'].
  - cbn [SFcompare]. destruct s; discriminate.
  - cbn [SFcompare]. destruct s'; discriminate.
  - cbn [SFcompare]. discriminate.
  - cbn [SFcompare]. intros [= H].
    destruct s, s'; try discriminate H.
    + destruct (Z.compare_spec e e') as [E| |]; try discriminate H.
      destruct (Pos.compare_cont Eq m m') eqn:Hm; try discriminate H.
      apply Pos.compare_eq in Hm. now subst.
    + destruct (Z.compare_spec e e') as [E| |]; try discriminate H.
      apply Pos.compare_eq in H. now subst.
Qed.

Lemma eqb_one (t : number) : (1 =? t) = true -> t = 1.
Proof.
  rewrite FloatAxioms.eqb_spec. unfold SFeqb.
  destruct (SFcompare (Prim2SF 1) (Prim2SF t)) as [[]|] eqn:E; try discriminate.
  intros _. change (Prim2SF 1) with (S754_finite false 4503599627370496 (-52)) in E.
  apply SFcompare_finite_eq in E. apply Prim2SF_inj. exact E.
Qed.

Lemma one_leb_not_leb_zero (t : number) :
  (1 <=? t) = true -> (t <=? 0) = false.
Proof.
  rewrite !FloatAxioms.leb_spec. unfold SFleb.
  change (Prim2SF 1) with (S754_finite false 4503599627370496 (-52)).
  change (Prim2SF 0) with (S754_zero false).
  destruct (Prim2SF t) as [s|[]| |[] m e]; cbn [SFcompare]; try discriminate;
    reflexivity.
Qed.

(** [Math.max(0, Math.min(1, t))] is the clamp to the unit interval. *)
Lemma Math_clamp_unit (t : number) :
  Math_max 0 (Math_min 1 t) = clampUnit t.
Proof.
  destruct (is_nan t) eqn:Hn.
  { apply is_nan_eq in Hn. subst t. reflexivity. }
  assert (Math_min 1 t = if 1 <? t then 1 else t) as ->.
  { unfold Math_min. change (is_nan 1) with false. rewrite Hn.
    cbn [orb]. change (is_zero 1) with false. cbn [andb].
    now destruct (1 <? t), (t <? 1). }
  unfold clampUnit.
  destruct (1 <? t) eqn:L1.
  - apply ltb_leb in L1. rewrite (one_leb_not_leb_zero _ L1), L1. reflexivity.
  - unfold Math_max. change (is_nan 0) with false. rewrite Hn. cbn [orb].
    change (is_zero 0 && negb (get_sign 0)) with true.
    rewrite (ltb_negb_leb 0 t) by (try reflexivity; exact Hn).
    destruct (t <=? 0) eqn:L0; cbn [negb].
    + now destruct (t <? 0).
    + destruct (1 <=? t) eqn:L2; [|reflexivity].
      apply eqb_one. now apply leb_not_ltb_eqb.
Qed.

(** The clamp answers in the unit interval. *)
Lemma clampUnit_range (t : number) :
  is_nan t = false ->
  (0 <=? clampUnit t) = true /\ (clampUnit t <=? 1) = true.
Proof.
  intros Hn. unfold clampUnit.
  destruct (t <=? 0) eqn:L0; [split; reflexivity|].
  destruct (1 <=? t) eqn:L1; [split; reflexivity|].
  assert ((0 <? t) = true) as H0
    by (rewrite (ltb_negb_leb 0 t), L0 by (try reflexivity; exact Hn); reflexivity).
  assert ((t <? 1) = true) as H1
    by (rewrite (ltb_negb_leb t 1), L1 by (try reflexivity; exact Hn); reflexivity).
  split; now apply ltb_leb.
Qed.

(** The source's distance is the clamped distance of the description. *)
Lemma pointToSegmentDistance_clamped (px py x1 y1 x2 y2 : number) :
  pointToSegmentDistance px py x1 y1 x2 y2
  = clampedSegmentDistance px py x1 y1 x2 y2.
Proof.
  unfold pointToSegmentDistance, clampedSegmentDistance, euclideanDistance,
    projectionParameter, pow2.
  cbv zeta. rewrite Math_clamp_unit. reflexivity.
Qed.

(** ** The scan *)

Lemma getNum_cons2 a b l (i : Z) :
  (0 <= i)%Z -> getNum (a :: b :: l) (i + 2) = getNum l i.
Proof.
  intros Hi. unfold getNum.
  destruct (Z.ltb_spec (i + 2) 0), (Z.ltb_spec i 0); try lia.
  replace (Z.to_nat (i + 2)) with (S (S (Z.to_nat i))) by lia. reflexivity.
Qed.

Lemma segmentWithin_cons2 x y a b l thr k :
  segmentWithin x y (a :: b :: l) thr (S k) = segmentWithin x y l thr k.
Proof.
  unfold segmentWithin.
  replace (Z.of_nat (2 * S k)) with (Z.of_nat (2 * k) + 2)%Z by lia.
  set (j := Z.of_nat (2 * k)).
  assert (0 <= j)%Z as Hj by (subst j; lia).
  replace (j + 2 + 1)%Z with (j + 1 + 2)%Z by lia.
  replace (j + 2 + 2)%Z with (j + 2 + 2)%Z by lia.
  replace (j + 2 + 3)%Z with (j + 3 + 2)%Z by lia.
  rewrite !getNum_cons2 by lia. reflexivity.
Qed.

Lemma segmentCountOf_cons2 a b c l :
  segmentCountOf (a :: b :: c :: l) = S (segmentCountOf (c :: l)).
Proof.
  unfold segmentCountOf. cbn [length].
  replace (S (S (S (length l))) - 1)%nat
    with (1 * 2 + (S (length l) - 1))%nat by lia.
  rewrite Nat.div_add_l by lia. reflexivity.
Qed.

Lemma existsb_map_shift (f g : nat -> bool) (l : list nat) :
  (forall k, f (S k) = g k) -> existsb f (map S l) = existsb g l.
Proof.
  intros H. induction l as [|k l IH]; [reflexivity|].
  cbn [map existsb]. now rewrite H, IH.
Qed.

Lemma hitSegments_step x y thr x1 y1 x2 after :
  hitSegments x y (x1 :: y1 :: x2 :: after) thr
  = if pointToSegmentDistance x y x1 y1 x2 (hd nan after) <=? thr then true
    else hitSegments x y (x2 :: after) thr.
Proof. reflexivity. Qed.

(** The list recursion [hitSegments] is the index loop of the source. *)
Lemma hitSegments_existsb x y thr pts :
  hitSegments x y pts thr
  = existsb (segmentWithin x y pts thr) (seq 0 (segmentCountOf pts)).
Proof.
  induction pts as [pts IH] using (induction_ltof1 _ (@length number)).
  unfold ltof in IH.
  destruct pts as [|x1 [|y1 [|x2 after]]]; try reflexivity.
  rewrite segmentCountOf_cons2, hitSegments_step. cbn [seq existsb].
  rewrite <- seq_shift.
  rewrite (existsb_map_shift _ (segmentWithin x y (x2 :: after) thr))
    by (intros k; apply segmentWithin_cons2).
  rewrite IH by (simpl; lia).
  replace (segmentWithin x y (x1 :: y1 :: x2 :: after) thr 0)
    with (pointToSegmentDistance x y x1 y1 x2 (hd nan after) <=? thr)
    by (unfold segmentWithin; destruct after; reflexivity).
  now destruct (_ <=? thr).
Qed.

Lemma scanStrokes_hit x y r s below :
  scanStrokes x y (s :: below) r
  = if strokeHit x y r s then Some (id s) else scanStrokes x y below r.
Proof.
  cbn [scanStrokes]. unfold strokeHit. now rewrite hitSegments_existsb.
Qed.

Lemma scanStrokes_first x y r above s below :
  Forall (fun t => strokeHit x y r t = false) above ->
  strokeHit x y r s = true ->
  scanStrokes x y (above ++ s :: below) r = Some (id s).
Proof.
  intros Habove Hs. induction Habove as [|t above Ht _ IH].
  - rewrite app_nil_l, scanStrokes_hit, Hs. reflexivity.
  - rewrite <- app_comm_cons, scanStrokes_hit, Ht. exact IH.
Qed.

Lemma scanStrokes_none x y r l :
  Forall (fun t => strokeHit x y r t = false) l ->
  scanStrokes x y l r = None.
Proof.
  induction 1 as [|t l Ht _ IH]; [reflexivity|].
  now rewrite scanStrokes_hit, Ht.
Qed.

Lemma scanStrokes_some x y r l h :
  scanStrokes x y l r = Some h ->
  exists above s below,
    l = above ++ s :: below /\
    Forall (fun t => strokeHit x y r t = false) above /\
    strokeHit x y r s = true /\ id s = h.
Proof.
  induction l as [|t l IH]; [discriminate|].
  rewrite scanStrokes_hit. destruct (strokeHit x y r t) eqn:Ht.
  - intros [= <-]. exists [], t, l. repeat split; auto.
  - intros H. destruct (IH H) as (above & s & below & -> & Ha & Hs & Hid).
    exists (t :: above), s, below. repeat split; auto.
Qed.

Lemma findStrokeAtPosition_some x y r strokes h :
  findStrokeAtPosition x y strokes r = Some h ->
  exists below s above,
    strokes = below ++ s :: above /\
    Forall (fun t => strokeHit x y r t = false) above /\
    strokeHit x y r s = true /\ id s = h.
Proof.
  unfold findStrokeAtPosition. intros H.
  destruct (scanStrokes_some _ _ _ _ _ H) as (ra & s & rb & E & Ha & Hs & Hid).
  exists (rev rb), s, (rev ra). repeat split; auto.
  - rewrite <- (rev_involutive strokes), E, rev_app_distr. cbn [rev].
    now rewrite <- app_assoc.
  - now apply Forall_rev.
Qed.

Lemma findStrokeAtPosition_first x y r below s above :
  Forall (fun t => strokeHit x y r t = false) above ->
  strokeHit x y r s = true ->
  findStrokeAtPosition x y (below ++ s :: above) r = Some (id s).
Proof.
  intros Ha Hs. unfold findStrokeAtPosition.
  rewrite rev_app_distr. cbn [rev]. rewrite <- app_assoc.
  apply scanStrokes_first; [now apply Forall_rev|exact Hs].
Qed.

Lemma findStrokeAtPosition_none x y r strokes :
  Forall (fun t => strokeHit x y r t = false) strokes ->
  findStrokeAtPosition x y strokes r = None.
Proof.
  intros H. apply scanStrokes_none. now apply Forall_rev.
Qed.

Lemma segmentCountOf_lt (pts : list number) (k : nat) :
  (k < segmentCountOf pts)%nat <-> (2 * k + 2 < length pts)%nat.
Proof.
  unfold segmentCountOf. split.
  - intros H.
    assert (2 * ((length pts - 1) / 2) <= length pts - 1)%nat
      by (apply Nat.Div0.mul_div_le).
    lia.
  - intros H. apply Nat.div_le_lower_bound; lia.
Qed.

(** A stroke is hit exactly when one of its segments is within the
    threshold in the clamped distance of the description. *)
Lemma strokeHit_clamped x y r s :
  strokeHit x y r s = true <->
  exists k : nat,
    (2 * k + 2 < length (points s))%nat /\
    withinClampedDistance x y (points s) (r + strokeWidth s / 2) k = true.
Proof.
  unfold strokeHit. rewrite existsb_exists. split.
  - intros (k & Hk & Hw). exists k. apply in_seq in Hk. split.
    + apply segmentCountOf_lt. lia.
    + unfold segmentWithin in Hw. unfold withinClampedDistance.
      now rewrite <- pointToSegmentDistance_clamped.
  - intros (k & Hk & Hw). exists k. split.
    + apply in_seq. apply segmentCountOf_lt in Hk. lia.
    + unfold segmentWithin. unfold withinClampedDistance in Hw.
      now rewrite pointToSegmentDistance_clamped.
Qed.

(** * Fragments of a cut stroke *)

Lemma pointsOf_snoc run a b :
  Nat.even (length run) = true ->
  pointsOf (run ++ [a; b]) = pointsOf run ++ [mkPoint a b].
Proof.
  induction run as [run IH] using (induction_ltof1 _ (@length number)).
  unfold ltof in IH. intros Hev.
  destruct run as [|c [|d run']]; [reflexivity|discriminate Hev|].
  cbn [app pointsOf]. rewrite IH; [reflexivity|simpl; lia|exact Hev].
Qed.

Lemma even_length_snoc2 (run : list number) a b :
  Nat.even (length run) = true -> Nat.even (length (run ++ [a; b])) = true.
Proof.
  intros H. rewrite length_app. cbn [length].
  replace (length run + 2)%nat with (S (S (length run))) by lia. exact H.
Qed.

Section Fragments.

Variables x y eraserRadius : number.
Variable stroke : StrokeLine.

Lemma fragmentOk_weaken walk more k f :
  fragmentOk stroke walk k f -> fragmentOk stroke (walk ++ more) k f.
Proof.
  intros (H1 & H2 & H3 & H4 & H5 & H6). repeat split; auto.
  now apply sublist_inserts_r.
Qed.

Lemma eraseInv_weaken walk more st :
  eraseInv stroke walk st -> eraseInv stroke (walk ++ more) st.
Proof.
  intros (H1 & H2 & H3 & H4). split; [exact H1|]. split; [|split].
  - intros k f Hk. now apply fragmentOk_weaken, H2.
  - exact H3.
  - now apply sublist_inserts_r.
Qed.

Lemma eraseInv_pushPoint walk a b st :
  eraseInv stroke walk st ->
  eraseInv stroke (walk ++ [mkPoint a b]) (pushPoint a b st).
Proof.
  intros (H1 & H2 & H3 & H4). unfold pushPoint.
  split; [exact H1|]. split; [|split].
  - intros k f Hk. now apply fragmentOk_weaken, H2.
  - now apply even_length_snoc2.
  - cbn [currentLinePoints]. rewrite pointsOf_snoc by exact H3.
    now apply sublist_app.
Qed.

Lemma eraseInv_finishLine walk st :
  eraseInv stroke walk st -> eraseInv stroke walk (finishLine stroke st).
Proof.
  intros (H1 & H2 & H3 & H4). unfold finishLine.
  destruct (Nat.leb_spec 4 (length (currentLinePoints st))) as [Hge|Hlt].
  - split; [|split; [|split]]; cbn [result currentLinePoints segmentCount].
    + rewrite length_app. cbn [length]. lia.
    + intros k f [Hk|[-> <-]]%lookup_snoc_Some.
      * now apply H2.
      * rewrite H1. repeat split; auto.
    + reflexivity.
    + apply sublist_nil_l.
  - split; [|split; [|split]]; cbn [result currentLinePoints segmentCount];
      auto using sublist_nil_l.
Qed.

Lemma eraseInv_crossIntersection walk st i :
  eraseInv stroke walk st ->
  eraseInv stroke (walk ++ [i]) (crossIntersection stroke st i).
Proof.
  intros H. unfold crossIntersection. destruct i as [ix iy].
  cbn [pt_x pt_y].
  destruct (0 <? length (currentLinePoints st))%nat.
  - now apply eraseInv_finishLine, eraseInv_pushPoint.
  - now apply eraseInv_pushPoint.
Qed.

Lemma eraseInv_fold walk cuts st :
  eraseInv stroke walk st ->
  eraseInv stroke (walk ++ cuts) (fold_left (crossIntersection stroke) cuts st).
Proof.
  revert walk st. induction cuts as [|i cuts IH]; intros walk st H.
  - now rewrite app_nil_r.
  - cbn [fold_left].
    replace (walk ++ i :: cuts) with ((walk ++ [i]) ++ cuts)
      by (now rewrite <- app_assoc).
    now apply IH, eraseInv_crossIntersection.
Qed.

Lemma eraseInv_eraseSegment walk px py cx cy st :
  eraseInv stroke walk st ->
  eraseInv stroke
    (walk ++ sortedCuts x y eraserRadius (mkPoint px py) (mkPoint cx cy)
          ++ [mkPoint cx cy])
    (eraseSegment x y eraserRadius stroke px py cx cy st).
Proof.
  intros H. unfold eraseSegment, sortedCuts.
  destruct (getSegmentCircleIntersections _ _ _ _) as [|i l] eqn:E.
  - cbn [length Nat.eqb sortPoints fold_left app].
    destruct (negb _).
    + now apply eraseInv_pushPoint.
    + now apply eraseInv_weaken, eraseInv_finishLine.
  - cbn [length Nat.eqb]. rewrite app_assoc.
    destruct (negb _).
    + now apply eraseInv_pushPoint, eraseInv_fold.
    + now apply eraseInv_weaken, eraseInv_fold.
Qed.

Lemma eraseInv_eraseSegments rest : forall walk px py st,
  eraseInv stroke walk st ->
  eraseInv stroke (walk ++ traversalFrom x y eraserRadius px py rest)
    (eraseSegments x y eraserRadius stroke px py rest st).
Proof.
  induction rest as [rest IH] using (induction_ltof1 _ (@length number)).
  unfold ltof in IH. intros walk px py st H.
  destruct rest as [|cx [|cy rest']].
  - cbn [traversalFrom eraseSegments]. now rewrite app_nil_r.
  - cbn [traversalFrom eraseSegments]. now apply eraseInv_eraseSegment.
  - cbn [traversalFrom eraseSegments].
    replace (walk ++ sortedCuts x y eraserRadius (mkPoint px py) (mkPoint cx cy)
                  ++ mkPoint cx cy :: traversalFrom x y eraserRadius cx cy rest')
      with ((walk ++ sortedCuts x y eraserRadius (mkPoint px py) (mkPoint cx cy)
                  ++ [mkPoint cx cy]) ++ traversalFrom x y eraserRadius cx cy rest')
      by (now rewrite <- !app_assoc).
    apply IH; [simpl; lia|]. now apply eraseInv_eraseSegment.
Qed.

Lemma eraseInv_init walk : eraseInv stroke walk (mkEraseState [] [] 0).
Proof.
  split; [reflexivity|]. split; [|split].
  - intros k f Hk. discriminate Hk.
  - reflexivity.
  - apply sublist_nil_l.
Qed.

Lemma eraseInv_startLine :
  eraseInv stroke [mkPoint (getNum (points stroke) 0) (getNum (points stroke) 1)]
    (startLine x y eraserRadius [] stroke).
Proof.
  unfold startLine. destruct (negb _).
  - apply (eraseInv_pushPoint [] _ _ (mkEraseState [] [] 0)), eraseInv_init.
  - apply eraseInv_init.
Qed.

Lemma fragmentsOf_ok :
  4 <= length (points stroke) ->
  forall k f, fragmentsOf x y eraserRadius stroke !! k = Some f ->
    fragmentOk stroke (traversal x y eraserRadius (points stroke)) k f.
Proof.
  intros Hge. rewrite fragmentsOf_long by exact Hge.
  pose proof (eraseInv_finishLine _ _
    (eraseInv_eraseSegments (drop 2 (points stroke)) _
       (getNum (points stroke) 0) (getNum (points stroke) 1) _
       eraseInv_startLine)) as (_ & H & _).
  exact H.
Qed.

End Fragments.

Lemma append_inj_r (p s1 s2 : string) : p +:+ s1 = p +:+ s2 -> s1 = s2.
Proof. induction p as [|c p IH]; simpl; [auto|]. intros [= H]. auto. Qed.

Lemma showNat_inj n m : showNat n = showNat m -> n = m.
Proof.
  unfold showNat. intros H.
  apply DecimalNat.Unsigned.to_uint_inj.
  pose proof (DecimalString.NilEmpty.usu (Nat.to_uint n)) as Hn.
  pose proof (DecimalString.NilEmpty.usu (Nat.to_uint m)) as Hm.
  rewrite H in Hn. congruence.
Qed.

Lemma append_nil_l (b : string) : "" +:+ b = b.
Proof. reflexivity. Qed.

Lemma append_cons c (a b : string) : String c a +:+ b = String c (a +:+ b).
Proof. reflexivity. Qed.

Lemma hasDash_app a b : hasDash (a +:+ b) = hasDash a || hasDash b.
Proof.
  induction a as [|c a IH]; [reflexivity|].
  rewrite append_cons. cbn [hasDash]. rewrite IH. apply orb_assoc.
Qed.

Lemma hasDash_dash a b : hasDash (a +:+ String dash b) = true.
Proof. rewrite hasDash_app. cbn [hasDash]. apply orb_true_r. Qed.

Lemma string_of_uint_no_dash d :
  hasDash (DecimalString.NilEmpty.string_of_uint d) = false.
Proof. induction d; simpl; auto. Qed.

Lemma showNat_no_dash n : hasDash (showNat n) = false.
Proof. apply string_of_uint_no_dash. Qed.

(** An identifier [a-d], [d] free of dashes, splits in one way only. *)
Lemma dash_suffix_inj a b da db :
  hasDash da = false -> hasDash db = false ->
  a +:+ String dash da = b +:+ String dash db -> a = b /\ da = db.
Proof.
  intros Ha Hb. revert b.
  induction a as [|c a IH]; intros [|c' b];
    rewrite ?append_nil_l, ?append_cons; intros E.
  - injection E as E. auto.
  - injection E as _ E. rewrite E, hasDash_dash in Ha. discriminate.
  - injection E as _ E. rewrite <- E, hasDash_dash in Hb. discriminate.
  - injection E as -> E. destruct (IH _ E) as [-> ->]. auto.
Qed.

Lemma fragmentsOf_NoDup x y r stroke :
  4 <= length (points stroke) ->
  NoDup (id <$> fragmentsOf x y r stroke).
Proof.
  intros Hge. apply NoDup_alt. intros i j h Hi Hj.
  rewrite list_lookup_fmap in Hi, Hj.
  destruct (fragmentsOf x y r stroke !! i) as [fi|] eqn:Ei; [|discriminate].
  destruct (fragmentsOf x y r stroke !! j) as [fj|] eqn:Ej; [|discriminate].
  injection Hi as <-. injection Hj as Hj.
  destruct (fragmentsOf_ok x y r stroke Hge i fi Ei) as (Hfi & _).
  destruct (fragmentsOf_ok x y r stroke Hge j fj Ej) as (Hfj & _).
  rewrite Hfi, Hfj in Hj.
  apply showNat_inj. eapply append_inj_r, append_inj_r. symmetry. exact Hj.
Qed.

(** Fragments of strokes with different identifiers have different
    identifiers. *)
Lemma fragmentsOf_id_inj x y r s s' k k' f f' :
  4 <= length (points s) -> 4 <= length (points s') ->
  fragmentsOf x y r s !! k = Some f ->
  fragmentsOf x y r s' !! k' = Some f' ->
  id f = id f' -> id s = id s' /\ k = k'.
Proof.
  intros Hs Hs' Hk Hk' E.
  destruct (fragmentsOf_ok x y r s Hs k f Hk) as (Hf & _).
  destruct (fragmentsOf_ok x y r s' Hs' k' f' Hk') as (Hf' & _).
  rewrite Hf, Hf' in E.
  change ("-" +:+ showNat k) with (String dash (showNat k)) in E.
  change ("-" +:+ showNat k') with (String dash (showNat k')) in E.
  apply dash_suffix_inj in E as [E1 E2]; auto using showNat_no_dash.
  split; [exact E1|]. now apply showNat_inj.
Qed.

(** * Short strokes and the hit test *)

Lemma pointToSegmentDistance_nan px py x1 y1 x2 :
  pointToSegmentDistance px py x1 y1 x2 nan = nan.
Proof.
  unfold pointToSegmentDistance, pow2. cbv zeta.
  rewrite sub_nan_l, !mul_nan_l, !mul_nan_r, !add_nan_r, eqb_nan_l, div_nan_r.
  change (Math_max 0 (Math_min 1 nan)) with nan.
  rewrite !mul_nan_l, !add_nan_r, !sub_nan_r. reflexivity.
Qed.

Lemma strokeHit_short x y r s :
  length (points s) < 4 -> strokeHit x y r s = false.
Proof.
  intros H. unfold strokeHit.
  destruct (points s) as [|a [|b [|c [|d l]]]]; try reflexivity.
  - change (segmentCountOf [a; b; c]) with 1%nat.
    cbn [seq existsb]. unfold segmentWithin.
    change (getNum [a; b; c] (Z.of_nat (2 * 0) + 3)) with nan.
    now rewrite pointToSegmentDistance_nan, leb_nan_l.
  - simpl in H. lia.
Qed.

Lemma findStrokeAtPosition_app_nohit x y r below t above :
  strokeHit x y r t = false ->
  findStrokeAtPosition x y (below ++ t :: above) r
  = findStrokeAtPosition x y (below ++ above) r.
Proof.
  intros Ht. unfold findStrokeAtPosition.
  rewrite !rev_app_distr. cbn [rev]. rewrite <- app_assoc. cbn [app].
  induction (rev above) as [|u l IH].
  - cbn [app]. now rewrite scanStrokes_hit, Ht.
  - cbn [app]. rewrite !scanStrokes_hit. now rewrite IH.
Qed.

Lemma findStrokeAtPosition_filter_long x y r strokes :
  findStrokeAtPosition x y strokes r
  = findStrokeAtPosition x y
      (filter (fun s => 4 <= length (points s)) strokes) r.
Proof.
  induction strokes as [|s strokes IH] using rev_ind; [reflexivity|].
  rewrite filter_app.
  destruct (decide (4 <= length (points s))) as [Hge|Hlt].
  - rewrite filter_cons_True by exact Hge. rewrite filter_nil.
    unfold findStrokeAtPosition in *. rewrite !rev_app_distr. cbn [rev app].
    rewrite !scanStrokes_hit, IH. reflexivity.
  - rewrite filter_cons_False by exact Hlt. rewrite filter_nil, app_nil_r.
    rewrite (findStrokeAtPosition_app_nohit x y r strokes s [])
      by (apply strokeHit_short; lia).
    now rewrite app_nil_r.
Qed.

(** * Whole-stroke erase *)

Lemma filter_all {A} (P : A -> Prop) `{forall a, Decision (P a)} (l : list A) :
  Forall P l -> filter P l = l.
Proof.
  induction 1 as [|a l Ha _ IH]; [reflexivity|].
  now rewrite filter_cons_True, IH.
Qed.

Lemma filter_remove_unique (below above : list StrokeLine) (s : StrokeLine) :
  NoDup (id <$> (below ++ s :: above)) ->
  filter (fun line => id line <> id s) (below ++ s :: above) = below ++ above.
Proof.
  intros Hnd. rewrite fmap_app, fmap_cons in Hnd.
  apply NoDup_app in Hnd as (_ & Hb & Ha).
  apply NoDup_cons in Ha as [Ha _].
  rewrite filter_app, filter_cons_False by (intros Hn; now apply Hn).
  rewrite !filter_all; [reflexivity| |].
  - apply Forall_forall. intros t Ht E. apply Ha. rewrite <- E.
    now apply list_elem_of_fmap_2.
  - apply Forall_forall. intros t Ht E. apply (Hb (id t)).
    + now apply list_elem_of_fmap_2.
    + rewrite E. left.
Qed.

Lemma eraseWholeStroke_hit pos size below s above :
  NoDup (id <$> (below ++ s :: above)) ->
  findStrokeAtPosition (pt_x pos) (pt_y pos) (below ++ s :: above) (size / 2)
  = Some (id s) ->
  id s <> "" ->
  eraseWholeStroke pos size (below ++ s :: above) = below ++ above.
Proof.
  intros Hnd Hfind Hne. unfold eraseWholeStroke, truthy. rewrite Hfind.
  destruct (decide (id s = "")) as [E|_]; [contradiction|].
  now apply filter_remove_unique.
Qed.

(** * Drawing *)

Lemma getNum_last2 pts a b :
  getNum (pts ++ [a; b]) (Z.of_nat (length (pts ++ [a; b])) - 2) = a /\
  getNum (pts ++ [a; b]) (Z.of_nat (length (pts ++ [a; b])) - 1) = b.
Proof.
  rewrite length_app. cbn [length]. unfold getNum.
  destruct (Z.ltb_spec (Z.of_nat (length pts + 2) - 2) 0),
           (Z.ltb_spec (Z.of_nat (length pts + 2) - 1) 0); try lia.
  replace (Z.to_nat (Z.of_nat (length pts + 2) - 2)) with (length pts) by lia.
  replace (Z.to_nat (Z.of_nat (length pts + 2) - 1)) with (S (length pts)) by lia.
  split.
  - rewrite app_nth2 by lia. now rewrite Nat.sub_diag.
  - rewrite app_nth2 by lia.
    now replace (S (length pts) - length pts)%nat with 1%nat by lia.
Qed.

Lemma appendSample_last pos earlier lastLine pts lastX lastY :
  points lastLine = pts ++ [lastX; lastY] ->
  appendSample pos (earlier ++ [lastLine])
  = if sqrt ((pt_x pos - lastX) * (pt_x pos - lastX)
             + (pt_y pos - lastY) * (pt_y pos - lastY)) <? MIN_POINT_DISTANCE
    then earlier ++ [lastLine]
    else earlier ++
         [mkStrokeLine (id lastLine) (points lastLine ++ [pt_x pos; pt_y pos])
                       (color lastLine) (strokeWidth lastLine)].
Proof.
  intros Hpts. unfold appendSample. rewrite last_snoc.
  rewrite Hpts. destruct (getNum_last2 pts lastX lastY) as [-> ->].
  destruct (_ <? MIN_POINT_DISTANCE); [reflexivity|].
  rewrite length_app. cbn [length].
  replace (length earlier + 1 - 1)%nat with (length earlier) by lia.
  now rewrite take_app_length.
Qed.

(** * The claims *)

(** C1.  The stroke [(0,0),(100,0)] erased with the circle of center
    [(50,0)] and radius [10] leaves exactly two fragments, of two points
    each: the first ends at [(40,0)], the second starts at [(60,0)]. *)
Theorem erase_through_middle (ident col : string) (w : number) :
  eraseAtPosition 50 0 [mkStrokeLine ident [0; 0; 100; 0] col w] 10
  = [mkStrokeLine (ident +:+ "-0") [0; 0; 40; 0] col w;
     mkStrokeLine (ident +:+ "-1") [60; 0; 100; 0] col w].
Proof. vm_compute. reflexivity. Qed.

(** C2, as stated, fails: a stroke the circle stays clear of comes back
    with a new identifier.  The segment from [(0,0)] to [(100,0)] is 50
    away from the center [(50,50)] of a circle of radius 10. *)
Lemma erase_disjoint_renames :
  allOutside 50 50 10 [0; 0; 100; 0] = true /\
  noCrossing 50 50 10 [0; 0; 100; 0] = true /\
  eraseAtPosition 50 50 [mkStrokeLine "s" [0; 0; 100; 0] "#000000" 3] 10
  = [mkStrokeLine "s-0" [0; 0; 100; 0] "#000000" 3] /\
  eraseAtPosition 50 50 [mkStrokeLine "s" [0; 0; 100; 0] "#000000" 3] 10
  <> [mkStrokeLine "s" [0; 0; 100; 0] "#000000" 3].
Proof.
  split; [vm_compute; reflexivity|]. split; [vm_compute; reflexivity|].
  split; [vm_compute; reflexivity|]. vm_compute. discriminate.
Qed.

(** C2, amended.  When every stroke lists whole points that are all outside
    the circle and no segment has a computed intersection with it, partial
    erase returns the strokes in the same order with the same points, color
    and width; a stroke with fewer than 2 points keeps its identifier, every
    other stroke gets its identifier suffixed with ["-0"]. *)
Theorem erase_disjoint_keeps_strokes (x y r : number)
    (strokes : list StrokeLine) :
  Forall (fun s => wholePoints (points s) = true /\
                   allOutside x y r (points s) = true /\
                   noCrossing x y r (points s) = true) strokes ->
  eraseAtPosition x y strokes r = map passedThrough strokes.
Proof.
  intros H. rewrite eraseAtPosition_flat_map.
  induction H as [|s strokes (Hev & Hout & Hno) _ IH]; [reflexivity|].
  cbn [flat_map map]. rewrite IH, fragmentsOf_outside by assumption.
  reflexivity.
Qed.

Lemma erase_disjoint_keeps_strokes_witness :
  Forall (fun s => wholePoints (points s) = true /\
                   allOutside 50 50 10 (points s) = true /\
                   noCrossing 50 50 10 (points s) = true)
    [mkStrokeLine "a" [0; 0; 100; 0; 100; 20] "#000000" 3;
     mkStrokeLine "b" [50; 70] "#ff0000" 5] /\
  eraseAtPosition 50 50
    [mkStrokeLine "a" [0; 0; 100; 0; 100; 20] "#000000" 3;
     mkStrokeLine "b" [50; 70] "#ff0000" 5] 10
  = [mkStrokeLine "a-0" [0; 0; 100; 0; 100; 20] "#000000" 3;
     mkStrokeLine "b" [50; 70] "#ff0000" 5].
Proof.
  assert (Forall (fun s => wholePoints (points s) = true /\
                   allOutside 50 50 10 (points s) = true /\
                   noCrossing 50 50 10 (points s) = true)
    [mkStrokeLine "a" [0; 0; 100; 0; 100; 20] "#000000" 3;
     mkStrokeLine "b" [50; 70] "#ff0000" 5]) as H.
  { repeat constructor; vm_compute; reflexivity. }
  split; [exact H|].
  exact (erase_disjoint_keeps_strokes 50 50 10 _ H).
Defined.

(** C3, as stated, fails: a first point at squared distance exactly
    [radius²] is not inside for [isPointInCircle], so it is seeded. *)
Lemma startLine_seeds_boundary_point :
  (pow2 (10 - 0) + pow2 (0 - 0) =? pow2 10) = true /\
  (pow2 10 <? pow2 (10 - 0) + pow2 (0 - 0)) = false /\
  currentLinePoints
    (startLine 0 0 10 [] (mkStrokeLine "s" [10; 0; 20; 0] "#000000" 3))
  = [10; 0].
Proof.
  split; [vm_compute; reflexivity|]. split; vm_compute; reflexivity.
Qed.

(** C3, amended.  For a stroke with at least 2 points, finite coordinates
    and a radius that is a number, the first point seeds the current line
    if and only if its squared distance from the center is at least
    [radius²] (a boundary point counts as outside and is seeded); otherwise
    the current line starts empty. *)
Theorem startLine_seeds_iff_not_inside (x y r : number) (s : StrokeLine)
    (result0 : list StrokeLine) :
  4 <= length (points s) ->
  is_finite (getNum (points s) 0) = true ->
  is_finite (getNum (points s) 1) = true ->
  is_finite x = true -> is_finite y = true -> is_nan r = false ->
  let px := getNum (points s) 0 in
  let py := getNum (points s) 1 in
  currentLinePoints (startLine x y r result0 s)
  = (if pow2 r <=? pow2 (px - x) + pow2 (py - y) then [px; py] else []) /\
  fragmentsOf x y r s
  = result (finishLine s
      (eraseSegments x y r s px py (drop 2 (points s))
         (startLine x y r [] s))).
Proof.
  intros Hlen Hpx Hpy Hx Hy Hr px py. split.
  - unfold startLine, isPointInCircle. fold px py.
    rewrite ltb_negb_leb.
    + rewrite negb_involutive. now destruct (_ <=? _).
    + unfold pow2. now apply sq_dist_not_nan.
    + unfold pow2. now apply sq_not_nan.
  - now apply fragmentsOf_long.
Qed.

Lemma startLine_seeds_iff_not_inside_witness :
  currentLinePoints
    (startLine 0 0 10 [] (mkStrokeLine "s" [10; 0; 20; 0] "#000000" 3))
  = [10; 0] /\
  currentLinePoints
    (startLine 0 0 10 [] (mkStrokeLine "s" [9; 0; 20; 0] "#000000" 3))
  = [].
Proof.
  split.
  - exact (proj1 (startLine_seeds_iff_not_inside 0 0 10
             (mkStrokeLine "s" [10; 0; 20; 0] "#000000" 3) []
             ltac:(simpl; lia) eq_refl eq_refl eq_refl eq_refl eq_refl)).
  - exact (proj1 (startLine_seeds_iff_not_inside 0 0 10
             (mkStrokeLine "s" [9; 0; 20; 0] "#000000" 3) []
             ltac:(simpl; lia) eq_refl eq_refl eq_refl eq_refl eq_refl)).
Defined.

(** C4, as stated, fails: a stroke of fewer than 2 points is passed on
    unchanged, also when its only point is the very center of the circle. *)
Lemma erase_inside_keeps_short_stroke :
  allInside 0 0 10 [0; 0] = true /\
  eraseAtPosition 0 0 [mkStrokeLine "s" [0; 0] "#000000" 3] 10
  = [mkStrokeLine "s" [0; 0] "#000000" 3].
Proof. split; vm_compute; reflexivity. Qed.

(** In binary64 the two points of a stroke can both test inside the circle
    while rounding makes the solver report the two ends of the segment as
    intersections; the segment then survives as a fragment.  Here the radius
    is 10 and the two points lie within a few units in the last place of
    the boundary. *)
Lemma erase_inside_rounding_keeps_fragment :
  allInside 0 0 10
    [0x1.ba9341e159582p-1; -0x1.3ecd5ff6bac37p+3;
     -0x1.4615c623f9189p-2; 0x1.3fd674281d35ep+3] = true /\
  length (eraseAtPosition 0 0
    [mkStrokeLine "s"
       [0x1.ba9341e159582p-1; -0x1.3ecd5ff6bac37p+3;
        -0x1.4615c623f9189p-2; 0x1.3fd674281d35ep+3] "#000000" 3] 10) = 1%nat.
Proof. split; vm_compute; reflexivity. Qed.

(** C4, amended.  A stroke with at least 2 points, every point of which is
    inside the circle and no segment of which has a computed intersection
    with it, leaves no fragment. *)
Theorem erase_inside_removes_stroke (x y r : number)
    (before after : list StrokeLine) (s : StrokeLine) :
  4 <= length (points s) ->
  allInside x y r (points s) = true ->
  noCrossing x y r (points s) = true ->
  fragmentsOf x y r s = [] /\
  eraseAtPosition x y (before ++ s :: after) r
  = eraseAtPosition x y before r ++ eraseAtPosition x y after r.
Proof.
  intros Hlen Hin Hno.
  pose proof (fragmentsOf_inside x y r s Hlen Hin Hno) as E.
  split; [exact E|]. now rewrite eraseAtPosition_split, E.
Qed.

Lemma erase_inside_removes_stroke_witness :
  4 <= length [1; 1; 2; 0; -1; -2] /\
  allInside 0 0 10 [1; 1; 2; 0; -1; -2] = true /\
  noCrossing 0 0 10 [1; 1; 2; 0; -1; -2] = true /\
  eraseAtPosition 0 0
    ([mkStrokeLine "a" [50; 50] "#000000" 3]
     ++ mkStrokeLine "s" [1; 1; 2; 0; -1; -2] "#000000" 3 :: []) 10
  = [mkStrokeLine "a" [50; 50] "#000000" 3].
Proof.
  assert (4 <= length [1; 1; 2; 0; -1; -2]) as H1 by (simpl; lia).
  assert (allInside 0 0 10 [1; 1; 2; 0; -1; -2] = true) as H2
    by (vm_compute; reflexivity).
  assert (noCrossing 0 0 10 [1; 1; 2; 0; -1; -2] = true) as H3
    by (vm_compute; reflexivity).
  split; [exact H1|]. split; [exact H2|]. split; [exact H3|].
  exact (proj2 (erase_inside_removes_stroke 0 0 10
                  [mkStrokeLine "a" [50; 50] "#000000" 3] []
                  (mkStrokeLine "s" [1; 1; 2; 0; -1; -2] "#000000" 3)
                  H1 H2 H3)).
Defined.

(** C5.  The fragments partial erase emits for a stroke with at least 2
    points stand where the stroke stood; fragment number [k] is named after
    the stroke with ["-"] and [k] appended, so the fragments of the stroke
    have pairwise distinct identifiers, which also differ from those of
    the fragments of every stroke with another identifier; a fragment has
    the color and width of the stroke, at least 2 whole points, and its
    points are, in order, points of the walk along the polyline (the
    stroke's points with the cuts of each segment before its end point). *)
Theorem fragments_well_formed (x y r : number)
    (before after : list StrokeLine) (s : StrokeLine) :
  4 <= length (points s) ->
  eraseAtPosition x y (before ++ s :: after) r
  = eraseAtPosition x y before r ++ fragmentsOf x y r s
    ++ eraseAtPosition x y after r /\
  NoDup (map id (fragmentsOf x y r s)) /\
  (forall k f, fragmentsOf x y r s !! k = Some f ->
     id f = id s +:+ "-" +:+ showNat k /\
     color f = color s /\
     strokeWidth f = strokeWidth s /\
     4 <= length (points f) /\
     Nat.even (length (points f)) = true /\
     pointsOf (points f) `sublist_of` traversal x y r (points s)) /\
  (forall s' k k' f f',
     4 <= length (points s') ->
     fragmentsOf x y r s !! k = Some f ->
     fragmentsOf x y r s' !! k' = Some f' ->
     id f = id f' -> id s = id s' /\ k = k').
Proof.
  intros Hlen. split; [apply eraseAtPosition_split|].
  split; [|split].
  - now apply fragmentsOf_NoDup.
  - intros k f Hk. exact (fragmentsOf_ok x y r s Hlen k f Hk).
  - intros s' k k' f f' Hlen'. now apply fragmentsOf_id_inj.
Qed.

Lemma fragments_well_formed_witness :
  4 <= length [0; 0; 10; 10; 20; 0] /\
  fragmentsOf 10 10 5 (mkStrokeLine "s" [0; 0; 10; 10; 20; 0] "#000000" 3)
  = [mkStrokeLine "s-0" [0; 0; 0x1.9db9cfff07aa0p+2; 0x1.9db9cfff07aa0p+2]
       "#000000" 3;
     mkStrokeLine "s-1" [0x1.b12318007c2b0p+3; 0x1.9db9cfff07aa0p+2; 20; 0]
       "#000000" 3] /\
  NoDup (map id
    (fragmentsOf 10 10 5 (mkStrokeLine "s" [0; 0; 10; 10; 20; 0] "#000000" 3))).
Proof.
  assert (4 <= length [0; 0; 10; 10; 20; 0]) as H by (simpl; lia).
  split; [exact H|]. split; [vm_compute; reflexivity|].
  exact (proj1 (proj2 (fragments_well_formed 10 10 5 [] []
           (mkStrokeLine "s" [0; 0; 10; 10; 20; 0] "#000000" 3) H))).
Defined.

(** C6.  A stroke with fewer than 2 points goes through partial erase
    unchanged, wherever the circle is and whatever its radius. *)
Theorem erase_short_stroke_unchanged (x y r : number)
    (before after : list StrokeLine) (s : StrokeLine) :
  length (points s) < 4 ->
  eraseAtPosition x y [s] r = [s] /\
  eraseAtPosition x y (before ++ s :: after) r
  = eraseAtPosition x y before r ++ s :: eraseAtPosition x y after r.
Proof.
  intros Hlen. pose proof (fragmentsOf_short x y r s Hlen) as E. split.
  - rewrite eraseAtPosition_flat_map. cbn [flat_map]. now rewrite E.
  - now rewrite eraseAtPosition_split, E.
Qed.

Lemma erase_short_stroke_unchanged_witness :
  length [0; 0] < 4 /\
  isPointInCircle 0 0 0 0 10 = true /\
  eraseAtPosition 0 0 [mkStrokeLine "s" [0; 0] "#000000" 3] 10
  = [mkStrokeLine "s" [0; 0] "#000000" 3].
Proof.
  assert (length [0; 0] < 4) as H by (simpl; lia).
  split; [exact H|]. split; [vm_compute; reflexivity|].
  exact (proj1 (erase_short_stroke_unchanged 0 0 10 [] []
                  (mkStrokeLine "s" [0; 0] "#000000" 3) H)).
Defined.

(** C7.  [findStrokeAtPosition] answers with the last stroke of the
    collection that has a segment within [hitRadius + strokeWidth / 2] of
    the query point, and with [None] when there is none; of two strokes
    that both qualify, the later one is reported.  A stroke qualifies
    exactly when, for one of its segments, the distance from the query to
    the point of the segment at the projection parameter clamped to
    [[0, 1]] is at most that threshold. *)
Theorem findStrokeAtPosition_topmost (x y r : number)
    (strokes : list StrokeLine) :
  (forall below s above,
     strokes = below ++ s :: above ->
     strokeHit x y r s = true ->
     Forall (fun t => strokeHit x y r t = false) above ->
     findStrokeAtPosition x y strokes r = Some (id s)) /\
  (Forall (fun t => strokeHit x y r t = false) strokes ->
     findStrokeAtPosition x y strokes r = None) /\
  (forall h, findStrokeAtPosition x y strokes r = Some h ->
     exists below s above,
       strokes = below ++ s :: above /\
       Forall (fun t => strokeHit x y r t = false) above /\
       strokeHit x y r s = true /\ id s = h) /\
  (forall s1 s2,
     strokes = [s1; s2] ->
     strokeHit x y r s1 = true -> strokeHit x y r s2 = true ->
     findStrokeAtPosition x y strokes r = Some (id s2)) /\
  (forall s,
     strokeHit x y r s = true <->
     exists k : nat,
       (2 * k + 2 < length (points s))%nat /\
       withinClampedDistance x y (points s) (r + strokeWidth s / 2) k
       = true).
Proof.
  split; [|split; [|split; [|split]]].
  - intros below s above -> Hs Ha. now apply findStrokeAtPosition_first.
  - apply findStrokeAtPosition_none.
  - apply findStrokeAtPosition_some.
  - intros s1 s2 -> _ H2.
    now apply (findStrokeAtPosition_first x y r [s1] s2 []).
  - intros s. apply strokeHit_clamped.
Qed.

(** Two crossing strokes under the query, the later one reported; and a
    query on the line of a segment but beyond its end, at clamped distance
    10 from it, which a threshold of 6.5 does not reach. *)
Lemma findStrokeAtPosition_topmost_witness :
  (strokeHit 5 0 10 (mkStrokeLine "first" [0; 0; 10; 0] "#000000" 3) = true /\
   strokeHit 5 0 10 (mkStrokeLine "second" [5; -5; 5; 5] "#000000" 3) = true /\
   findStrokeAtPosition 5 0
     [mkStrokeLine "first" [0; 0; 10; 0] "#000000" 3;
      mkStrokeLine "second" [5; -5; 5; 5] "#000000" 3] 10
   = Some "second") /\
  (clampedSegmentDistance 20 0 0 0 10 0 = 10 /\
   clampedSegmentDistance (-5) 0 0 0 10 0 = 5 /\
   clampedSegmentDistance 5 3 0 0 10 0 = 3 /\
   strokeHit 20 0 5 (mkStrokeLine "first" [0; 0; 10; 0] "#000000" 3) = false /\
   findStrokeAtPosition 20 0
     [mkStrokeLine "first" [0; 0; 10; 0] "#000000" 3] 5
   = None) /\
  (exists k : nat,
     (2 * k + 2 < 4)%nat /\
     withinClampedDistance 20 0 [0; 0; 10; 0] (10 + 3 / 2) k = true).
Proof.
  assert (strokeHit 5 0 10 (mkStrokeLine "first" [0; 0; 10; 0] "#000000" 3)
          = true) as H1 by (vm_compute; reflexivity).
  assert (strokeHit 5 0 10 (mkStrokeLine "second" [5; -5; 5; 5] "#000000" 3)
          = true) as H2 by (vm_compute; reflexivity).
  assert (strokeHit 20 0 5 (mkStrokeLine "first" [0; 0; 10; 0] "#000000" 3)
          = false) as H3 by (vm_compute; reflexivity).
  assert (strokeHit 20 0 10 (mkStrokeLine "first" [0; 0; 10; 0] "#000000" 3)
          = true) as H4 by (vm_compute; reflexivity).
  split; [|split].
  - split; [exact H1|]. split; [exact H2|].
    exact (proj1 (proj2 (proj2 (proj2 (findStrokeAtPosition_topmost 5 0 10
             [mkStrokeLine "first" [0; 0; 10; 0] "#000000" 3;
              mkStrokeLine "second" [5; -5; 5; 5] "#000000" 3]))))
           _ _ eq_refl H1 H2).
  - split; [vm_compute; reflexivity|].
    split; [vm_compute; reflexivity|].
    split; [vm_compute; reflexivity|].
    split; [exact H3|].
    exact (proj1 (proj2 (findStrokeAtPosition_topmost 20 0 5
             [mkStrokeLine "first" [0; 0; 10; 0] "#000000" 3]))
           (Forall_cons_2 _ _ _ H3 (Forall_nil_2 _))).
  - exact (proj1 (proj2 (proj2 (proj2 (proj2 (findStrokeAtPosition_topmost
             20 0 10 []))))
             (mkStrokeLine "first" [0; 0; 10; 0] "#000000" 3)) H4).
Defined.

(** C8.  With the stroke eraser selected and a collection without repeated
    identifiers, when the hit test finds the stroke [s], pointer down (and
    pointer move with the button held) removes exactly that stroke: the
    collection is one shorter, the identifier of [s] is gone, and the
    strokes below and above it stay as they were, in order. *)
Theorem whole_stroke_erase_removes_one (w : Whiteboard) (pos : Point)
    (now : N) (below above : list StrokeLine) (s : StrokeLine) :
  activeTool w = Eraser ->
  eraserMode w = StrokeMode ->
  lines w = below ++ s :: above ->
  NoDup (id <$> lines w) ->
  findStrokeAtPosition (pt_x pos) (pt_y pos) (lines w) (eraserSize w / 2)
  = Some (id s) ->
  id s <> "" ->
  lines (handlePointerDown (Some pos) now w) = below ++ above /\
  lines (handlePointerMove (Some pos) 1 w) = below ++ above /\
  (length (below ++ above) + 1 = length (lines w))%nat /\
  id s ∉ (id <$> (below ++ above)).
Proof.
  intros Htool Hmode E Hnd Hfind Hne.
  assert (eraseWholeStroke pos (eraserSize w) (lines w) = below ++ above) as Hw.
  { rewrite E in *. now apply eraseWholeStroke_hit. }
  split; [|split; [|split]].
  - unfold handlePointerDown. rewrite Htool, Hmode. cbn [lines setLines].
    exact Hw.
  - unfold handlePointerMove. cbn [activeTool setCursorPos eraserMode].
    rewrite Htool, Hmode. cbn [isEraser andb Z.eqb Pos.eqb].
    cbn [lines setLines setCursorPos eraserSize]. exact Hw.
  - rewrite E, !length_app. cbn [length]. lia.
  - rewrite E, fmap_app, fmap_cons in Hnd.
    apply NoDup_app in Hnd as (_ & Hb & Ha).
    apply NoDup_cons in Ha as [Ha _].
    rewrite fmap_app, elem_of_app.
    intros [Hin|Hin]; [apply (Hb _ Hin); left|now apply Ha].
Qed.

Lemma whole_stroke_erase_removes_one_witness :
  lines
    (handlePointerDown (Some (mkPoint 5 0)) 0
       (mkWhiteboard
          [mkStrokeLine "first" [0; 0; 10; 0] "#000000" 3;
           mkStrokeLine "second" [5; -5; 5; 5] "#000000" 3;
           mkStrokeLine "third" [50; 50; 60; 60] "#000000" 3]
          false 3 "#000000" Eraser StrokeMode 20 None))
  = [mkStrokeLine "first" [0; 0; 10; 0] "#000000" 3]
    ++ [mkStrokeLine "third" [50; 50; 60; 60] "#000000" 3].
Proof.
  refine (proj1 (whole_stroke_erase_removes_one
     (mkWhiteboard
          [mkStrokeLine "first" [0; 0; 10; 0] "#000000" 3;
           mkStrokeLine "second" [5; -5; 5; 5] "#000000" 3;
           mkStrokeLine "third" [50; 50; 60; 60] "#000000" 3]
          false 3 "#000000" Eraser StrokeMode 20 None)
     (mkPoint 5 0) 0%N
     [mkStrokeLine "first" [0; 0; 10; 0] "#000000" 3]
     [mkStrokeLine "third" [50; 50; 60; 60] "#000000" 3]
     (mkStrokeLine "second" [5; -5; 5; 5] "#000000" 3)
     eq_refl eq_refl eq_refl _ _ _)).
  - cbn [lines fmap list_fmap id]. compute_done.
  - vm_compute. reflexivity.
  - discriminate.
Defined.

(** C9.  While drawing, with finite coordinates, a pointer-move sample is
    appended to the stroke in progress if and only if its distance from the
    last point of that stroke is at least [MIN_POINT_DISTANCE], that is 3;
    a sample that is closer leaves the collection unchanged. *)
Theorem sample_appended_iff_far_enough (w : Whiteboard) (pos : Point)
    (buttons : Z) (earlier : list StrokeLine) (lastLine : StrokeLine)
    (pts : list number) (lastX lastY : number) :
  activeTool w = Pen ->
  isDrawing w = true ->
  lines w = earlier ++ [lastLine] ->
  points lastLine = pts ++ [lastX; lastY] ->
  is_finite (pt_x pos) = true -> is_finite (pt_y pos) = true ->
  is_finite lastX = true -> is_finite lastY = true ->
  let distance :=
    sqrt ((pt_x pos - lastX) * (pt_x pos - lastX)
          + (pt_y pos - lastY) * (pt_y pos - lastY)) in
  MIN_POINT_DISTANCE = 3 /\
  lines (handlePointerMove (Some pos) buttons w)
  = if MIN_POINT_DISTANCE <=? distance
    then earlier ++
         [mkStrokeLine (id lastLine) (points lastLine ++ [pt_x pos; pt_y pos])
                       (color lastLine) (strokeWidth lastLine)]
    else lines w.
Proof.
  intros Htool Hdraw Hlines Hpts Hx Hy Hlx Hly distance.
  split; [reflexivity|].
  unfold handlePointerMove. cbn [activeTool isDrawing setCursorPos].
  rewrite Htool, Hdraw. cbn [isEraser andb negb lines setLines setCursorPos].
  rewrite Hlines, (appendSample_last pos earlier lastLine pts lastX lastY Hpts).
  fold distance.
  rewrite ltb_negb_leb;
    [|now apply sqrt_sq_dist_not_nan|reflexivity].
  now destruct (MIN_POINT_DISTANCE <=? distance).
Qed.

Lemma sample_appended_iff_far_enough_witness :
  lines
    (handlePointerMove (Some (mkPoint 3 0)) 0
       (mkWhiteboard [mkStrokeLine "stroke-1" [0; 0] "#000000" 3]
          true 3 "#000000" Pen StrokeMode 20 None))
  = [mkStrokeLine "stroke-1" [0; 0; 3; 0] "#000000" 3] /\
  lines
    (handlePointerMove (Some (mkPoint 0x1.7333333333333p+1 0)) 0
       (mkWhiteboard [mkStrokeLine "stroke-1" [0; 0] "#000000" 3]
          true 3 "#000000" Pen StrokeMode 20 None))
  = [mkStrokeLine "stroke-1" [0; 0] "#000000" 3].
Proof.
  split.
  - exact (proj2 (sample_appended_iff_far_enough
      (mkWhiteboard [mkStrokeLine "stroke-1" [0; 0] "#000000" 3]
          true 3 "#000000" Pen StrokeMode 20 None)
      (mkPoint 3 0) 0 [] (mkStrokeLine "stroke-1" [0; 0] "#000000" 3) [] 0 0
      eq_refl eq_refl eq_refl eq_refl eq_refl eq_refl eq_refl eq_refl)).
  - exact (proj2 (sample_appended_iff_far_enough
      (mkWhiteboard [mkStrokeLine "stroke-1" [0; 0] "#000000" 3]
          true 3 "#000000" Pen StrokeMode 20 None)
      (mkPoint 0x1.7333333333333p+1 0) 0 []
      (mkStrokeLine "stroke-1" [0; 0] "#000000" 3) [] 0 0
      eq_refl eq_refl eq_refl eq_refl eq_refl eq_refl eq_refl eq_refl)).
Defined.

Lemma NoDup_fmap_id_inj (strokes : list StrokeLine) (s t : StrokeLine) :
  NoDup (id <$> strokes) -> s ∈ strokes -> t ∈ strokes -> id s = id t -> s = t.
Proof.
  intros Hnd Hs Ht E.
  apply list_elem_of_lookup in Hs as [i Hi].
  apply list_elem_of_lookup in Ht as [j Hj].
  assert (i = j) as ->.
  { eapply (proj1 (NoDup_alt (id <$> strokes)) Hnd i j (id s));
      rewrite list_lookup_fmap; [now rewrite Hi|now rewrite Hj, E]. }
  congruence.
Qed.

(** C10.  A stroke with fewer than 2 points has no segment for the hit test
    to look at: it never counts as hit, the answer of
    [findStrokeAtPosition] is the same with such strokes left out, the
    stroke it reports always has at least 2 points, and (identifiers being
    distinct) a stroke with fewer than 2 points is never reported nor
    removed by the stroke eraser. *)
Theorem short_strokes_never_hit (x y r : number) (strokes : list StrokeLine) :
  (forall s, length (points s) < 4 -> strokeHit x y r s = false) /\
  findStrokeAtPosition x y strokes r
  = findStrokeAtPosition x y
      (filter (fun s => 4 <= length (points s)) strokes) r /\
  (forall h, findStrokeAtPosition x y strokes r = Some h ->
     exists s, s ∈ strokes /\ id s = h /\ 4 <= length (points s) /\
               strokeHit x y r s = true) /\
  (forall s, s ∈ strokes -> length (points s) < 4 ->
     NoDup (id <$> strokes) ->
     findStrokeAtPosition x y strokes r <> Some (id s) /\
     forall size, s ∈ eraseWholeStroke (mkPoint x y) size strokes).
Proof.
  assert (forall rr h, findStrokeAtPosition x y strokes rr = Some h ->
     exists s, s ∈ strokes /\ id s = h /\ 4 <= length (points s) /\
               strokeHit x y rr s = true) as Hsome.
  { intros rr h Hfind.
    destruct (findStrokeAtPosition_some _ _ _ _ _ Hfind)
      as (below & s & above & E & _ & Hs & Hid).
    exists s. split; [rewrite E; apply elem_of_app; right; left|].
    split; [exact Hid|]. split; [|exact Hs].
    destruct (le_lt_dec 4 (length (points s))) as [Hge|Hlt]; [exact Hge|].
    rewrite strokeHit_short in Hs by exact Hlt. discriminate. }
  assert (forall rr s, s ∈ strokes -> length (points s) < 4 ->
     NoDup (id <$> strokes) ->
     findStrokeAtPosition x y strokes rr <> Some (id s)) as Hnot.
  { intros rr s Hin Hlt Hnd Hfind.
    destruct (Hsome rr _ Hfind) as (t & Ht & Hid & Hge & _).
    assert (t = s) as -> by (eapply NoDup_fmap_id_inj; eauto).
    lia. }
  split; [apply strokeHit_short|].
  split; [apply findStrokeAtPosition_filter_long|].
  split; [apply Hsome|].
  intros s Hin Hlt Hnd. split; [now apply Hnot|].
  intros size. unfold eraseWholeStroke. cbn [pt_x pt_y].
  destruct (findStrokeAtPosition x y strokes (size / 2)) as [h|] eqn:Hfind;
    [|exact Hin].
  cbn [truthy]. destruct (decide (h = "")); [exact Hin|].
  apply list_elem_of_filter. split; [|exact Hin].
  intros E. apply (Hnot (size / 2) s Hin Hlt Hnd). now rewrite Hfind, E.
Qed.

Lemma short_strokes_never_hit_witness :
  length [5; 5] < 4 /\
  strokeHit 5 5 10 (mkStrokeLine "dot" [5; 5] "#000000" 3) = false /\
  findStrokeAtPosition 5 5 [mkStrokeLine "dot" [5; 5] "#000000" 3] 10 = None.
Proof.
  assert (length [5; 5] < 4) as H by (simpl; lia).
  split; [exact H|]. split.
  - exact (proj1 (short_strokes_never_hit 5 5 10 [])
             (mkStrokeLine "dot" [5; 5] "#000000" 3) H).
  - rewrite (proj1 (proj2 (short_strokes_never_hit 5 5 10
               [mkStrokeLine "dot" [5; 5] "#000000" 3]))).
    reflexivity.
Defined.

(** * Further properties of the partial eraser *)

(** X1.  Partial erase treats the strokes one by one: the result for a
    collection is the results for its parts, one after the other, so what
    becomes of a stroke does not depend on the other strokes and the order
    of the strokes is kept. *)
Theorem eraseAtPosition_app (x y r : number) (l1 l2 : list StrokeLine) :
  eraseAtPosition x y (l1 ++ l2) r
  = eraseAtPosition x y l1 r ++ eraseAtPosition x y l2 r.
Proof. rewrite !eraseAtPosition_flat_map. apply flat_map_app. Qed.

Section Survivors.

Variables x y eraserRadius : number.
Variable stroke : StrokeLine.

Lemma keptInv_weaken walk more st :
  keptInv walk st -> keptInv (walk ++ more) st.
Proof.
  intros (H1 & H2 & H3). split; [|split].
  - eapply Forall_impl; [exact H1|]. intros f Hf. now apply sublist_inserts_r.
  - exact H2.
  - now apply sublist_inserts_r.
Qed.

Lemma keptInv_pushPoint walk a b st :
  keptInv walk st -> keptInv (walk ++ [mkPoint a b]) (pushPoint a b st).
Proof.
  intros (H1 & H2 & H3). unfold pushPoint. split; [|split].
  - eapply Forall_impl; [exact H1|]. intros f Hf. now apply sublist_inserts_r.
  - now apply even_length_snoc2.
  - cbn [currentLinePoints]. rewrite pointsOf_snoc by exact H2.
    now apply sublist_app.
Qed.

Lemma keptInv_finishLine walk st :
  keptInv walk st -> keptInv walk (finishLine stroke st).
Proof.
  intros (H1 & H2 & H3). unfold finishLine.
  destruct (4 <=? length (currentLinePoints st))%nat;
    (split; [|split]); cbn [result currentLinePoints segmentCount];
    auto using sublist_nil_l.
  apply Forall_app. split; [exact H1|]. now constructor.
Qed.

Lemma keptInv_crossIntersection walk st i :
  keptInv walk st -> keptInv (walk ++ [i]) (crossIntersection stroke st i).
Proof.
  intros H. unfold crossIntersection. destruct i as [ix iy]. cbn [pt_x pt_y].
  destruct (0 <? length (currentLinePoints st))%nat.
  - now apply keptInv_finishLine, keptInv_pushPoint.
  - now apply keptInv_pushPoint.
Qed.

Lemma keptInv_fold walk cuts st :
  keptInv walk st ->
  keptInv (walk ++ cuts) (fold_left (crossIntersection stroke) cuts st).
Proof.
  revert walk st. induction cuts as [|i cuts IH]; intros walk st H.
  - now rewrite app_nil_r.
  - cbn [fold_left].
    replace (walk ++ i :: cuts) with ((walk ++ [i]) ++ cuts)
      by (now rewrite <- app_assoc).
    now apply IH, keptInv_crossIntersection.
Qed.

Lemma keptInv_eraseSegment walk px py cx cy st :
  keptInv walk st ->
  keptInv
    (walk ++ sortedCuts x y eraserRadius (mkPoint px py) (mkPoint cx cy)
          ++ (if isPointInCircle cx cy x y eraserRadius then []
              else [mkPoint cx cy]))
    (eraseSegment x y eraserRadius stroke px py cx cy st).
Proof.
  intros H. unfold eraseSegment, sortedCuts.
  destruct (getSegmentCircleIntersections _ _ _ _) as [|i l] eqn:E.
  - cbn [length Nat.eqb sortPoints fold_left app].
    destruct (isPointInCircle cx cy x y eraserRadius); cbn [negb].
    + rewrite app_nil_r. now apply keptInv_finishLine.
    + now apply keptInv_pushPoint.
  - cbn [length Nat.eqb]. rewrite app_assoc.
    destruct (isPointInCircle cx cy x y eraserRadius); cbn [negb].
    + rewrite app_nil_r. now apply keptInv_fold.
    + now apply keptInv_pushPoint, keptInv_fold.
Qed.

Lemma keptInv_eraseSegments rest : forall walk px py st,
  keptInv walk st ->
  keptInv (walk ++ survivorsFrom x y eraserRadius px py rest)
    (eraseSegments x y eraserRadius stroke px py rest st).
Proof.
  induction rest as [rest IH] using (induction_ltof1 _ (@length number)).
  unfold ltof in IH. intros walk px py st H.
  destruct rest as [|cx [|cy rest']].
  - cbn [survivorsFrom eraseSegments]. now rewrite app_nil_r.
  - cbn [survivorsFrom eraseSegments]. now apply keptInv_eraseSegment.
  - cbn [survivorsFrom eraseSegments].
    set (cuts := sortedCuts x y eraserRadius (mkPoint px py) (mkPoint cx cy)).
    set (end_ := if isPointInCircle cx cy x y eraserRadius then []
                 else [mkPoint cx cy]).
    replace (walk ++ cuts ++ end_ ++ survivorsFrom x y eraserRadius cx cy rest')
      with ((walk ++ cuts ++ end_) ++ survivorsFrom x y eraserRadius cx cy rest')
      by (now rewrite <- !app_assoc).
    apply IH; [simpl; lia|]. now apply keptInv_eraseSegment.
Qed.

Lemma keptInv_startLine :
  keptInv
    (if isPointInCircle (getNum (points stroke) 0) (getNum (points stroke) 1)
          x y eraserRadius
     then [] else [mkPoint (getNum (points stroke) 0) (getNum (points stroke) 1)])
    (startLine x y eraserRadius [] stroke).
Proof.
  assert (forall walk, keptInv walk (mkEraseState [] [] 0)) as Hinit.
  { intros walk. split; [constructor|]. split; [reflexivity|apply sublist_nil_l]. }
  unfold startLine. destruct (isPointInCircle _ _ _ _ _); cbn [negb].
  - apply Hinit.
  - apply (keptInv_pushPoint [] _ _ (mkEraseState [] [] 0)), Hinit.
Qed.

Lemma fragmentsOf_survivors :
  4 <= length (points stroke) ->
  Forall (fun f => pointsOf (points f)
                     `sublist_of` survivors x y eraserRadius (points stroke))
         (fragmentsOf x y eraserRadius stroke).
Proof.
  intros Hge. rewrite fragmentsOf_long by exact Hge.
  pose proof (keptInv_finishLine _ _
    (keptInv_eraseSegments (drop 2 (points stroke)) _
       (getNum (points stroke) 0) (getNum (points stroke) 1) _
       keptInv_startLine)) as (H & _).
  exact H.
Qed.

End Survivors.

Lemma sortInsert_Permutation cmp e l : sortInsert cmp e l ≡ₚ e :: l.
Proof.
  induction l as [|h l IH]; [reflexivity|].
  cbn [sortInsert]. destruct (_ <? 0); [reflexivity|].
  rewrite IH. apply Permutation_swap.
Qed.

(** Sorting keeps the intersections, each as often as it was there. *)
Lemma sortPoints_Permutation cmp l : sortPoints cmp l ≡ₚ l.
Proof.
  unfold sortPoints.
  assert (forall acc, fold_left (fun sorted e => sortInsert cmp e sorted) l acc
                      ≡ₚ acc ++ l) as H.
  { induction l as [|e l IH]; intros acc; cbn [fold_left].
    - now rewrite app_nil_r.
    - rewrite IH, sortInsert_Permutation.
      now rewrite (Permutation_middle acc l e). }
  apply H.
Qed.

Lemma elem_of_sortedCuts x y r p1 p2 p :
  p ∈ sortedCuts x y r p1 p2 <->
  p ∈ getSegmentCircleIntersections p1 p2 (mkPoint x y) r.
Proof. unfold sortedCuts. now rewrite sortPoints_Permutation. Qed.

(** Where the points of the walk come from: a point of the stroke that
    tests outside, or a cut of a segment between two consecutive points. *)
Lemma survivorsFrom_origin x y r rest : forall px py p,
  p ∈ survivorsFrom x y r px py rest ->
  (p ∈ pointsOf rest /\ isPointInCircle (pt_x p) (pt_y p) x y r = false) \/
  exists (k : nat) (a b : Point),
    (mkPoint px py :: pointsOf rest) !! k = Some a /\
    (mkPoint px py :: pointsOf rest) !! S k = Some b /\
    p ∈ getSegmentCircleIntersections a b (mkPoint x y) r.
Proof.
  induction rest as [rest IH] using (induction_ltof1 _ (@length number)).
  unfold ltof in IH. intros px py p.
  destruct rest as [|cx [|cy rest']]; cbn [survivorsFrom pointsOf].
  - intros H. now apply elem_of_nil in H.
  - rewrite elem_of_app. intros [H|H].
    + right. exists 0%nat, (mkPoint px py), (mkPoint cx nan).
      split; [reflexivity|]. split; [reflexivity|].
      now apply elem_of_sortedCuts.
    + destruct (isPointInCircle cx nan x y r) eqn:E;
        [now apply elem_of_nil in H|].
      apply list_elem_of_singleton in H as ->. left.
      split; [apply list_elem_of_singleton; reflexivity|exact E].
  - rewrite !elem_of_app. intros [H|[H|H]].
    + right. exists 0%nat, (mkPoint px py), (mkPoint cx cy).
      split; [reflexivity|]. split; [reflexivity|].
      now apply elem_of_sortedCuts.
    + destruct (isPointInCircle cx cy x y r) eqn:E;
        [now apply elem_of_nil in H|].
      apply list_elem_of_singleton in H as ->. left.
      split; [left|exact E].
    + destruct (IH rest' ltac:(simpl; lia) cx cy p H)
        as [[Hin Hout]|(k & a & b & Ha & Hb & Hcut)].
      * left. split; [now right|exact Hout].
      * right. exists (S k), a, b. auto.
Qed.

Lemma survivors_origin x y r pts p :
  4 <= length pts ->
  p ∈ survivors x y r pts -> keptPointOf x y r pts p \/ cutOf x y r pts p.
Proof.
  intros Hlen. destruct pts as [|a [|b rest]]; try (simpl in Hlen; lia).
  unfold survivors, keptPointOf, cutOf.
  change (getNum (a :: b :: rest) 0) with a.
  change (getNum (a :: b :: rest) 1) with b.
  change (drop 2 (a :: b :: rest)) with rest. cbn [pointsOf].
  rewrite elem_of_app. intros [H|H].
  - destruct (isPointInCircle a b x y r) eqn:E;
      [now apply elem_of_nil in H|].
    apply list_elem_of_singleton in H as ->. left. split; [left|exact E].
  - destruct (survivorsFrom_origin x y r rest a b p H)
      as [[Hin Hout]|Hcut]; [left|right; exact Hcut].
    split; [now right|exact Hout].
Qed.

(** X2.  Every point of every fragment of a stroke comes from that stroke:
    it is a point of the stroke that [isPointInCircle] places outside the
    eraser circle, or an intersection that [getSegmentCircleIntersections]
    computes for two consecutive points of the stroke.  The points of a
    fragment are, in order, points of the walk along the polyline from
    which the stroke points that test inside have been taken out.  (A
    stroke point that tests inside is never copied as such; its coordinates
    can come back only as a computed intersection.) *)
Theorem fragment_points_are_kept_points_or_cuts (x y r : number)
    (s : StrokeLine) :
  4 <= length (points s) ->
  Forall (fun f =>
            pointsOf (points f) `sublist_of` survivors x y r (points s) /\
            forall p, p ∈ pointsOf (points f) ->
              keptPointOf x y r (points s) p \/ cutOf x y r (points s) p)
         (eraseAtPosition x y [s] r).
Proof.
  intros Hge. rewrite eraseAtPosition_flat_map. cbn [flat_map].
  rewrite app_nil_r.
  eapply Forall_impl; [exact (fragmentsOf_survivors x y r s Hge)|].
  intros f Hf. split; [exact Hf|].
  intros p Hp. apply (survivors_origin x y r (points s)); [exact Hge|].
  exact (elem_of_sublist _ _ _ Hp Hf).
Qed.

(** The eraser on the middle point of a stroke of three points: the middle
    point tests inside, and the fragments hold the two ends and one cut of
    each segment. *)
Lemma fragment_points_are_kept_points_or_cuts_witness :
  4 <= length [0; 0; 10; 10; 20; 0] /\
  isPointInCircle 10 10 10 10 5 = true /\
  length (eraseAtPosition 10 10
            [mkStrokeLine "s" [0; 0; 10; 10; 20; 0] "#000000" 3] 5) = 2%nat /\
  Forall (fun f =>
            pointsOf (points f)
              `sublist_of` survivors 10 10 5 [0; 0; 10; 10; 20; 0] /\
            forall p, p ∈ pointsOf (points f) ->
              keptPointOf 10 10 5 [0; 0; 10; 10; 20; 0] p \/
              cutOf 10 10 5 [0; 0; 10; 10; 20; 0] p)
         (eraseAtPosition 10 10
            [mkStrokeLine "s" [0; 0; 10; 10; 20; 0] "#000000" 3] 5).
Proof.
  assert (4 <= length [0; 0; 10; 10; 20; 0]) as H by (simpl; lia).
  split; [exact H|]. split; [vm_compute; reflexivity|].
  split; [vm_compute; reflexivity|].
  exact (fragment_points_are_kept_points_or_cuts 10 10 5
           (mkStrokeLine "s" [0; 0; 10; 10; 20; 0] "#000000" 3) H).
Defined.

(** * Further facts about binary64 arithmetic *)

Lemma ltb_nan_r (v : number) : (v <? nan) = false.
Proof.
  rewrite FloatAxioms.ltb_spec. change (Prim2SF nan) with S754_nan.
  unfold SFltb. now destruct (Prim2SF v).
Qed.

Lemma leb_nan_r (v : number) : (v <=? nan) = false.
Proof.
  rewrite FloatAxioms.leb_spec. change (Prim2SF nan) with S754_nan.
  unfold SFleb. now destruct (Prim2SF v).
Qed.

Lemma mul_opp_opp (v : number) : (- v) * (- v) = v * v.
Proof.
  apply Prim2SF_inj. rewrite !FloatAxioms.mul_spec, opp_spec.
  destruct (Prim2SF v) as [s|s| |s m e]; simpl; try reflexivity;
    now destruct s.
Qed.

(** A finite number minus itself is [+0]. *)
Lemma sub_diag_finite (v : number) : is_finite v = true -> v - v = 0.
Proof.
  intros H%is_finite_Prim2SF. apply Prim2SF_inj.
  rewrite FloatAxioms.sub_spec. change (Prim2SF 0) with (S754_zero false).
  destruct (Prim2SF v) as [s|s| |s m e]; simpl in *; try tauto.
  - now destruct s.
  - unfold SF64sub, SFsub. rewrite Z.sub_diag. reflexivity.
Qed.

Lemma SFsqrt_notNegative (x : spec_float) : SFnotNegative (SF64sqrt x).
Proof.
  destruct x as [s|s| |s m e]; simpl; auto.
  - destruct s; simpl; auto.
  - destruct s; simpl; auto.
    pose proof (SFsqrt_nonneg (S754_finite false m e) eq_refl) as H.
    simpl in H. destruct (SFsqrt_core_binary _ _) as [[mz ez] lz].
    destruct (binary_round_aux _ _ _ _ _ _); simpl in *; auto.
Qed.

(** What is not negative is not at or below a negative number. *)
Lemma leb_notNegative_negative (d t : number) :
  SFnotNegative (Prim2SF d) -> (t <? 0) = true -> (d <=? t) = false.
Proof.
  rewrite FloatAxioms.ltb_spec, FloatAxioms.leb_spec.
  change (Prim2SF 0) with (S754_zero false). unfold SFltb, SFleb.
  destruct (Prim2SF d) as [sd|sd| |sd md ed],
           (Prim2SF t) as [st|st| |st mt et]; simpl;
    try discriminate; try reflexivity;
    try (destruct st; discriminate || reflexivity);
    intros ->; destruct st; try discriminate; reflexivity.
Qed.

Lemma sqrt_not_negative (v t : number) :
  (t <? 0) = true -> (sqrt v <=? t) = false.
Proof.
  apply leb_notNegative_negative. rewrite sqrt_spec.
  apply SFsqrt_notNegative.
Qed.

(** * Degenerate circles and segments *)

Ltac nan_simpl :=
  repeat (rewrite ?sub_nan_r, ?sub_nan_l, ?mul_nan_l, ?mul_nan_r,
            ?add_nan_l, ?add_nan_r, ?div_nan_r, ?leb_nan_r, ?leb_nan_l,
            ?ltb_nan_r, ?ltb_nan_l).

Lemma isPointInCircle_nan px py cx cy r :
  cx = nan \/ cy = nan \/ r = nan -> isPointInCircle px py cx cy r = false.
Proof.
  unfold isPointInCircle, pow2.
  intros [-> | [-> | ->]]; progress nan_simpl; reflexivity.
Qed.

Lemma getSegmentCircleIntersections_nan p1 p2 x y r :
  x = nan \/ y = nan \/ r = nan ->
  getSegmentCircleIntersections p1 p2 (mkPoint x y) r = [].
Proof.
  unfold getSegmentCircleIntersections. cbn [pt_x pt_y]. cbv zeta.
  intros [-> | [-> | ->]]; progress nan_simpl; reflexivity.
Qed.

Lemma allOutside_nan x y r pts :
  x = nan \/ y = nan \/ r = nan -> allOutside x y r pts = true.
Proof.
  intros H. unfold allOutside.
  induction pts as [pts IH] using (induction_ltof1 _ (@length number)).
  unfold ltof in IH.
  destruct pts as [|a [|b rest]]; cbn [allPoints];
    rewrite ?isPointInCircle_nan by exact H; try reflexivity.
  cbn [negb andb]. apply IH. simpl. lia.
Qed.

Lemma noCrossingFrom_nan x y r rest : forall px py,
  x = nan \/ y = nan \/ r = nan -> noCrossingFrom x y r px py rest = true.
Proof.
  induction rest as [rest IH] using (induction_ltof1 _ (@length number)).
  unfold ltof in IH. intros px py H.
  destruct rest as [|a [|b rest]]; cbn [noCrossingFrom];
    rewrite ?getSegmentCircleIntersections_nan by exact H; try reflexivity.
  cbn [length Nat.eqb andb]. apply IH; [simpl; lia|exact H].
Qed.

Lemma isPointInCircle_opp px py cx cy r :
  isPointInCircle px py cx cy (- r) = isPointInCircle px py cx cy r.
Proof. unfold isPointInCircle, pow2. now rewrite mul_opp_opp. Qed.

Lemma getSegmentCircleIntersections_opp p1 p2 c r :
  getSegmentCircleIntersections p1 p2 c (- r)
  = getSegmentCircleIntersections p1 p2 c r.
Proof. unfold getSegmentCircleIntersections. now rewrite mul_opp_opp. Qed.

Lemma eraseSegment_opp x y r s px py cx cy st :
  eraseSegment x y (- r) s px py cx cy st
  = eraseSegment x y r s px py cx cy st.
Proof.
  unfold eraseSegment.
  now rewrite getSegmentCircleIntersections_opp, isPointInCircle_opp.
Qed.

Lemma eraseSegments_opp x y r s rest : forall px py st,
  eraseSegments x y (- r) s px py rest st
  = eraseSegments x y r s px py rest st.
Proof.
  induction rest as [rest IH] using (induction_ltof1 _ (@length number)).
  unfold ltof in IH. intros px py st.
  destruct rest as [|cx [|cy rest']]; cbn [eraseSegments].
  - reflexivity.
  - apply eraseSegment_opp.
  - rewrite eraseSegment_opp. apply IH. simpl. lia.
Qed.

Lemma eraseStroke_opp x y r result0 s :
  eraseStroke x y (- r) result0 s = eraseStroke x y r result0 s.
Proof.
  unfold eraseStroke, startLine.
  now rewrite isPointInCircle_opp, eraseSegments_opp.
Qed.

(** X3.  The partial eraser reads its radius only through its square: a
    negative radius erases exactly what the radius of the same size
    erases. *)
Theorem eraseAtPosition_negative_radius (x y r : number)
    (strokes : list StrokeLine) :
  eraseAtPosition x y strokes (- r) = eraseAtPosition x y strokes r.
Proof.
  unfold eraseAtPosition. generalize (@nil StrokeLine) as acc.
  induction strokes as [|s strokes IH]; intros acc; [reflexivity|].
  cbn [fold_left]. now rewrite eraseStroke_opp, IH.
Qed.

(** X4.  A partial erase whose position or radius is NaN cuts nothing:
    every stroke that lists whole points comes back with its points, color
    and width, a stroke of at least 2 points under its identifier
    suffixed with ["-0"]. *)
Theorem eraseAtPosition_nan_erases_nothing (x y r : number)
    (strokes : list StrokeLine) :
  is_nan x || is_nan y || is_nan r = true ->
  Forall (fun s => wholePoints (points s) = true) strokes ->
  eraseAtPosition x y strokes r = map passedThrough strokes.
Proof.
  intros Hnan Hwhole.
  assert (x = nan \/ y = nan \/ r = nan) as H.
  { apply orb_true_iff in Hnan as [Hnan|Hnan];
      [apply orb_true_iff in Hnan as [Hnan|Hnan]|];
      apply is_nan_eq in Hnan; auto. }
  rewrite eraseAtPosition_flat_map.
  induction Hwhole as [|s strokes Hs _ IH]; [reflexivity|].
  cbn [flat_map map]. rewrite IH, fragmentsOf_outside; [reflexivity|exact Hs| |].
  - now apply allOutside_nan.
  - now apply noCrossingFrom_nan.
Qed.

Lemma eraseAtPosition_nan_erases_nothing_witness :
  is_nan 50 || is_nan 0 || is_nan nan = true /\
  eraseAtPosition 50 0
    [mkStrokeLine "s" [0; 0; 100; 0] "#000000" 3;
     mkStrokeLine "t" [50; 0] "#000000" 3] nan
  = [mkStrokeLine "s-0" [0; 0; 100; 0] "#000000" 3;
     mkStrokeLine "t" [50; 0] "#000000" 3].
Proof.
  split; [reflexivity|].
  refine (eraseAtPosition_nan_erases_nothing 50 0 nan
            [mkStrokeLine "s" [0; 0; 100; 0] "#000000" 3;
             mkStrokeLine "t" [50; 0] "#000000" 3] eq_refl _).
  repeat constructor.
Defined.

(** * The distance to a segment *)

(** X5.  The distance [pointToSegmentDistance] computes is never below a
    negative number; so with a negative hit radius that outweighs half the
    width of every stroke, the hit test finds nothing. *)
Theorem hit_test_negative_threshold (x y r : number)
    (strokes : list StrokeLine) :
  (forall px py x1 y1 x2 y2 t,
     (t <? 0) = true ->
     (pointToSegmentDistance px py x1 y1 x2 y2 <=? t) = false) /\
  (Forall (fun s => (r + strokeWidth s / 2 <? 0) = true) strokes ->
   findStrokeAtPosition x y strokes r = None).
Proof.
  assert (forall px py x1 y1 x2 y2 t,
     (t <? 0) = true ->
     (pointToSegmentDistance px py x1 y1 x2 y2 <=? t) = false) as Hd.
  { intros px py x1 y1 x2 y2 t Ht. unfold pointToSegmentDistance. cbv zeta.
    destruct (_ =? 0); now apply sqrt_not_negative. }
  split; [exact Hd|].
  intros H. apply findStrokeAtPosition_none.
  eapply Forall_impl; [exact H|]. intros s Hs. cbv beta in Hs.
  unfold strokeHit. apply not_true_is_false. intros Hex.
  apply existsb_exists in Hex as (k & _ & Hk).
  unfold segmentWithin in Hk. rewrite Hd in Hk by exact Hs. discriminate.
Qed.

Lemma hit_test_negative_threshold_witness :
  Forall (fun s => (-5 + strokeWidth s / 2 <? 0) = true)
    [mkStrokeLine "s" [0; 0; 10; 0] "#000000" 3] /\
  findStrokeAtPosition 5 0 [mkStrokeLine "s" [0; 0; 10; 0] "#000000" 3] (-5)
  = None.
Proof.
  assert (Forall (fun s => (-5 + strokeWidth s / 2 <? 0) = true)
    [mkStrokeLine "s" [0; 0; 10; 0] "#000000" 3]) as H
    by (repeat constructor).
  split; [exact H|].
  exact (proj2 (hit_test_negative_threshold 5 0 (-5)
                  [mkStrokeLine "s" [0; 0; 10; 0] "#000000" 3]) H).
Defined.

(** X6.  On a segment whose two ends are the same finite point,
    [pointToSegmentDistance] is the distance to that point. *)
Theorem pointToSegmentDistance_degenerate (px py x1 y1 : number) :
  is_finite x1 = true -> is_finite y1 = true ->
  pointToSegmentDistance px py x1 y1 x1 y1
  = sqrt (pow2 (px - x1) + pow2 (py - y1)).
Proof.
  intros Hx Hy. unfold pointToSegmentDistance. cbv zeta.
  rewrite !sub_diag_finite by assumption. reflexivity.
Qed.

Lemma pointToSegmentDistance_degenerate_witness :
  is_finite 3 = true /\ is_finite 4 = true /\
  pointToSegmentDistance 0 0 3 4 3 4 = 5.
Proof.
  split; [reflexivity|]. split; [reflexivity|].
  rewrite (pointToSegmentDistance_degenerate 0 0 3 4 eq_refl eq_refl).
  reflexivity.
Defined.

(** X7.  [getSegmentCircleIntersections] returns at most two points, and
    none for a segment whose two ends are the same finite point. *)
Theorem getSegmentCircleIntersections_bounds (p1 p2 c : Point) (r : number) :
  length (getSegmentCircleIntersections p1 p2 c r) <= 2 /\
  (is_finite (pt_x p1) = true -> is_finite (pt_y p1) = true ->
   getSegmentCircleIntersections p1 p1 c r = []).
Proof.
  split.
  - unfold getSegmentCircleIntersections. cbv zeta.
    destruct (0 <=? _); [|simpl; lia].
    destruct (_ =? 0); [simpl; lia|].
    rewrite length_app.
    destruct (_ && _), (_ && _); simpl; lia.
  - intros Hx Hy. unfold getSegmentCircleIntersections. cbv zeta.
    rewrite !sub_diag_finite by assumption.
    change (0 * 0 + 0 * 0 =? 0) with true.
    now destruct (0 <=? _).
Qed.

Lemma getSegmentCircleIntersections_bounds_witness :
  is_finite 5 = true /\ is_finite 0 = true /\
  getSegmentCircleIntersections (mkPoint 5 0) (mkPoint 5 0) (mkPoint 0 0) 5
  = [].
Proof.
  split; [reflexivity|]. split; [reflexivity|].
  exact (proj2 (getSegmentCircleIntersections_bounds
                  (mkPoint 5 0) (mkPoint 5 0) (mkPoint 0 0) 5)
           eq_refl eq_refl).
Defined.

(** * Invariants of the pointer handlers *)

Lemma fragmentsOf_wellFormed x y r s :
  wellFormedStroke s -> Forall wellFormedStroke (fragmentsOf x y r s).
Proof.
  intros Hs. destruct (le_lt_dec 4 (length (points s))) as [Hge|Hlt].
  - apply Forall_lookup_2. intros k f Hk.
    destruct (fragmentsOf_ok x y r s Hge k f Hk) as (_ & _ & _ & H4 & Hev & _).
    split; [exact Hev|lia].
  - rewrite fragmentsOf_short by exact Hlt. now constructor.
Qed.

Lemma eraseAtPosition_wellFormed x y r strokes :
  Forall wellFormedStroke strokes ->
  Forall wellFormedStroke (eraseAtPosition x y strokes r).
Proof.
  rewrite eraseAtPosition_flat_map.
  induction 1 as [|s strokes Hs _ IH]; [constructor|].
  cbn [flat_map]. apply Forall_app. split; [|exact IH].
  now apply fragmentsOf_wellFormed.
Qed.

Lemma eraseWholeStroke_sublist pos size strokes :
  eraseWholeStroke pos size strokes `sublist_of` strokes.
Proof.
  unfold eraseWholeStroke. destruct (truthy _); [|reflexivity].
  apply sublist_filter.
Qed.

Lemma Forall_sublist_of {A} (P : A -> Prop) (l k : list A) :
  l `sublist_of` k -> Forall P k -> Forall P l.
Proof.
  intros Hsub Hk. apply Forall_forall. intros a Ha.
  apply (proj1 (Forall_forall P k) Hk). now apply (elem_of_sublist l k).
Qed.

Lemma appendSample_cases pos prevLines :
  appendSample pos prevLines = prevLines \/
  exists earlier lastLine,
    prevLines = earlier ++ [lastLine] /\
    appendSample pos prevLines
    = earlier ++ [mkStrokeLine (id lastLine)
                    (points lastLine ++ [pt_x pos; pt_y pos])
                    (color lastLine) (strokeWidth lastLine)].
Proof.
  unfold appendSample. destruct (last prevLines) as [lastLine|] eqn:E; [|now left].
  destruct (_ <? MIN_POINT_DISTANCE); [now left|]. right.
  apply last_Some in E as [earlier ->]. exists earlier, lastLine.
  split; [reflexivity|].
  rewrite length_app. cbn [length].
  replace (length earlier + 1 - 1)%nat with (length earlier) by lia.
  now rewrite take_app_length.
Qed.

Lemma appendSample_wellFormed pos strokes :
  Forall wellFormedStroke strokes ->
  Forall wellFormedStroke (appendSample pos strokes).
Proof.
  intros H. destruct (appendSample_cases pos strokes)
    as [->|(earlier & lastLine & -> & ->)]; [exact H|].
  apply Forall_app in H as [He Hl]. apply Forall_app. split; [exact He|].
  apply Forall_inv in Hl as [Hev Hlen]. constructor; [|constructor].
  split; cbn [points].
  - now apply even_length_snoc2.
  - rewrite length_app. lia.
Qed.

(** X8.  Every pointer handler keeps the collection well formed: if each
    stroke lists at least one point and only whole points before the
    event, so does each stroke after it.  (On such arrays no loop of the
    component reads past the end.) *)
Theorem handlers_keep_strokes_well_formed (w : Whiteboard)
    (pos : option Point) (now : N) (buttons : Z) :
  Forall wellFormedStroke (lines w) ->
  Forall wellFormedStroke (lines (handlePointerDown pos now w)) /\
  Forall wellFormedStroke (lines (handlePointerMove pos buttons w)) /\
  Forall wellFormedStroke (lines (handlePointerUp w)).
Proof.
  intros H. split; [|split].
  - unfold handlePointerDown. destruct pos as [p|]; [|exact H].
    destruct (activeTool w); [|destruct (eraserMode w)]; cbn [lines setLines].
    + apply Forall_app. split; [exact H|]. constructor; [|constructor].
      split; [reflexivity|simpl; lia].
    + now apply eraseAtPosition_wellFormed.
    + eapply Forall_sublist_of; [apply eraseWholeStroke_sublist|exact H].
  - unfold handlePointerMove. destruct pos as [p|]; [|exact H].
    cbn [activeTool setCursorPos eraserMode isDrawing lines eraserSize].
    destruct (isEraser (activeTool w) && (buttons =? 1)%Z).
    + destruct (eraserMode w); cbn [lines setLines].
      * now apply eraseAtPosition_wellFormed.
      * eapply Forall_sublist_of; [apply eraseWholeStroke_sublist|exact H].
    + destruct (negb (isDrawing w)); cbn [lines setLines setCursorPos];
        [exact H|]. now apply appendSample_wellFormed.
  - exact H.
Qed.

Lemma handlers_keep_strokes_well_formed_witness :
  Forall wellFormedStroke
    (lines (handlePointerMove (Some (mkPoint 50 0)) 1
       (mkWhiteboard [mkStrokeLine "stroke-1" [0; 0; 100; 0] "#000000" 3]
          false 3 "#000000" Eraser PartialMode 20 None))).
Proof.
  refine (proj1 (proj2 (handlers_keep_strokes_well_formed
    (mkWhiteboard [mkStrokeLine "stroke-1" [0; 0; 100; 0] "#000000" 3]
          false 3 "#000000" Eraser PartialMode 20 None)
    (Some (mkPoint 50 0)) 0%N 1 _))).
  constructor; [|constructor]. split; [reflexivity|simpl; lia].
Defined.

(** ** Identifiers *)

Lemma dashCount_app a b :
  dashCount (a +:+ b) = (dashCount a + dashCount b)%nat.
Proof.
  induction a as [|c a IH]; [reflexivity|].
  rewrite append_cons. cbn [dashCount]. rewrite IH. lia.
Qed.

Lemma dashCount_string_of_uint d :
  dashCount (DecimalString.NilEmpty.string_of_uint d) = 0%nat.
Proof. induction d; simpl; auto. Qed.

Lemma fragmentsOf_dashes x y r s f :
  4 <= length (points s) -> f ∈ fragmentsOf x y r s ->
  dashCount (id f) = S (dashCount (id s)) /\ 4 <= length (points f).
Proof.
  intros Hge [k Hk]%list_elem_of_lookup.
  destruct (fragmentsOf_ok x y r s Hge k f Hk) as (Hid & _ & _ & H4 & _).
  split; [|exact H4]. rewrite Hid, !dashCount_app.
  unfold showNat. rewrite dashCount_string_of_uint.
  change (dashCount "-") with 1%nat. lia.
Qed.

Lemma fragmentsOf_ids_disjoint x y r s s' f f' :
  (1 <= dashCount (id s) /\ (length (points s) < 4 -> dashCount (id s) = 1%nat)) ->
  (1 <= dashCount (id s') /\
   (length (points s') < 4 -> dashCount (id s') = 1%nat)) ->
  id s <> id s' ->
  f ∈ fragmentsOf x y r s -> f' ∈ fragmentsOf x y r s' ->
  id f <> id f'.
Proof.
  intros [Hs1 Hs2] [Hs1' Hs2'] Hne Hf Hf' E.
  destruct (le_lt_dec 4 (length (points s))) as [Hge|Hlt],
           (le_lt_dec 4 (length (points s'))) as [Hge'|Hlt'].
  - apply list_elem_of_lookup in Hf as [k Hk].
    apply list_elem_of_lookup in Hf' as [k' Hk'].
    destruct (fragmentsOf_id_inj x y r s s' k k' f f' Hge Hge' Hk Hk' E).
    contradiction.
  - destruct (fragmentsOf_dashes x y r s f Hge Hf) as [Hd _].
    rewrite fragmentsOf_short in Hf' by exact Hlt'.
    apply list_elem_of_singleton in Hf' as ->.
    rewrite E, (Hs2' Hlt') in Hd. lia.
  - destruct (fragmentsOf_dashes x y r s' f' Hge' Hf') as [Hd _].
    rewrite fragmentsOf_short in Hf by exact Hlt.
    apply list_elem_of_singleton in Hf as ->.
    rewrite <- E, (Hs2 Hlt) in Hd. lia.
  - rewrite fragmentsOf_short in Hf by exact Hlt.
    rewrite fragmentsOf_short in Hf' by exact Hlt'.
    apply list_elem_of_singleton in Hf as ->.
    apply list_elem_of_singleton in Hf' as ->. contradiction.
Qed.

Lemma elem_of_flat_map_fragments x y r strokes f :
  f ∈ flat_map (fragmentsOf x y r) strokes ->
  exists s, s ∈ strokes /\ f ∈ fragmentsOf x y r s.
Proof.
  intros H. apply list_elem_of_In, in_flat_map in H as (s & Hs & Hf).
  exists s. split; now apply list_elem_of_In.
Qed.

Lemma eraseAtPosition_idsOk x y r strokes :
  idsOk strokes -> idsOk (eraseAtPosition x y strokes r).
Proof.
  rewrite eraseAtPosition_flat_map. intros [Hnd Hall]. split.
  - induction strokes as [|s strokes IH]; [constructor|].
    cbn [flat_map]. rewrite fmap_app.
    rewrite fmap_cons in Hnd. apply NoDup_cons in Hnd as [Hs Hnd].
    apply Forall_cons in Hall as [Ps Hall].
    apply NoDup_app. split; [|split].
    + destruct (le_lt_dec 4 (length (points s))) as [Hge|Hlt].
      * now apply fragmentsOf_NoDup.
      * rewrite fragmentsOf_short by exact Hlt. apply NoDup_singleton.
    + intros h [f [-> Hf]]%list_elem_of_fmap [f' [E Hf']]%list_elem_of_fmap.
      apply elem_of_flat_map_fragments in Hf' as (s' & Hs' & Hf').
      refine (fragmentsOf_ids_disjoint x y r s s' f f' Ps _ _ Hf Hf' E).
      * exact (proj1 (Forall_forall _ _) Hall s' Hs').
      * intros E'. apply Hs. rewrite E'. now apply list_elem_of_fmap_2.
    + now apply IH.
  - clear Hnd. induction Hall as [|s strokes [Ps1 Ps2] _ IH]; [constructor|].
    cbn [flat_map]. apply Forall_app. split; [|exact IH].
    destruct (le_lt_dec 4 (length (points s))) as [Hge|Hlt].
    + apply Forall_forall. intros f Hf.
      destruct (fragmentsOf_dashes x y r s f Hge Hf) as [Hd H4].
      split; [lia|]. intros Hlt. lia.
    + rewrite fragmentsOf_short by exact Hlt. constructor; [|constructor].
      now split.
Qed.

Lemma sublist_idsOk (l k : list StrokeLine) :
  l `sublist_of` k -> idsOk k -> idsOk l.
Proof.
  intros Hsub [Hnd Hall]. split.
  - eapply sublist_NoDup; [exact Hnd|]. now apply fmap_sublist.
  - eapply Forall_sublist_of; eassumption.
Qed.

Lemma appendSample_idsOk pos strokes :
  idsOk strokes -> idsOk (appendSample pos strokes).
Proof.
  intros H. destruct (appendSample_cases pos strokes)
    as [->|(earlier & lastLine & -> & ->)]; [exact H|].
  destruct H as [Hnd Hall]. split.
  - rewrite fmap_app in *. exact Hnd.
  - apply Forall_app in Hall as [He Hl]. apply Forall_app. split; [exact He|].
    apply Forall_inv in Hl as [H1 H2]. constructor; [|constructor].
    cbn [id points]. split; [exact H1|].
    rewrite length_app. intros Hlt. apply H2. lia.
Qed.

(** X9.  Every pointer handler keeps the identifiers of the collection
    pairwise distinct, provided the identifier a pen stroke is created with
    is not in use (together with: every identifier holds a ["-"], exactly
    one for a stroke of fewer than 2 points).  In particular the fragments
    a partial erase makes never take the identifier of another stroke. *)
Theorem handlers_keep_identifiers_distinct (w : Whiteboard)
    (pos : option Point) (now : N) (buttons : Z) :
  idsOk (lines w) ->
  (("stroke-" +:+ showN now) ∉ (id <$> lines w) ->
   idsOk (lines (handlePointerDown pos now w))) /\
  idsOk (lines (handlePointerMove pos buttons w)) /\
  idsOk (lines (handlePointerUp w)).
Proof.
  intros H. split; [|split].
  - intros Hfresh. unfold handlePointerDown. destruct pos as [p|]; [|exact H].
    destruct (activeTool w); [|destruct (eraserMode w)]; cbn [lines setLines].
    + destruct H as [Hnd Hall]. split.
      * rewrite fmap_app. apply NoDup_app. split; [exact Hnd|].
        split; [|apply NoDup_singleton].
        intros h Hh ->%list_elem_of_singleton. now apply Hfresh.
      * apply Forall_app. split; [exact Hall|]. constructor; [|constructor].
        cbn [id points]. rewrite dashCount_app. unfold showN.
        rewrite dashCount_string_of_uint.
        change (dashCount "stroke-") with 1%nat. split; [lia|reflexivity].
    + now apply eraseAtPosition_idsOk.
    + eapply sublist_idsOk; [apply eraseWholeStroke_sublist|exact H].
  - unfold handlePointerMove. destruct pos as [p|]; [|exact H].
    cbn [activeTool setCursorPos eraserMode isDrawing lines eraserSize].
    destruct (isEraser (activeTool w) && (buttons =? 1)%Z).
    + destruct (eraserMode w); cbn [lines setLines].
      * now apply eraseAtPosition_idsOk.
      * eapply sublist_idsOk; [apply eraseWholeStroke_sublist|exact H].
    + destruct (negb (isDrawing w)); cbn [lines setLines setCursorPos];
        [exact H|]. now apply appendSample_idsOk.
  - exact H.
Qed.

Lemma handlers_keep_identifiers_distinct_witness :
  idsOk
    (lines (handlePointerMove (Some (mkPoint 50 0)) 1
       (mkWhiteboard
          [mkStrokeLine "stroke-1" [0; 0; 100; 0] "#000000" 3;
           mkStrokeLine "stroke-2" [50; 0] "#000000" 3]
          false 3 "#000000" Eraser PartialMode 20 None))).
Proof.
  refine (proj1 (proj2 (handlers_keep_identifiers_distinct
    (mkWhiteboard
          [mkStrokeLine "stroke-1" [0; 0; 100; 0] "#000000" 3;
           mkStrokeLine "stroke-2" [50; 0] "#000000" 3]
          false 3 "#000000" Eraser PartialMode 20 None)
    (Some (mkPoint 50 0)) 0%N 1 _))).
  split.
  - cbn [lines fmap list_fmap id]. compute_done.
  - cbn [lines]. repeat constructor; cbn [points length]; intros; lia.
Defined.

(** * Whole-stroke erase on any collection *)

(** X10.  On any collection, also one with repeated identifiers, the
    stroke eraser keeps the order of the strokes and removes exactly the
    strokes that carry the identifier the hit test reports, all of them
    when it is shared and none when it is the empty string; when nothing
    is hit the collection is returned as it is. *)
Theorem whole_stroke_erase_removes_reported_id (pos : Point) (size : number)
    (strokes : list StrokeLine) :
  eraseWholeStroke pos size strokes `sublist_of` strokes /\
  (findStrokeAtPosition (pt_x pos) (pt_y pos) strokes (size / 2) = None ->
   eraseWholeStroke pos size strokes = strokes) /\
  (findStrokeAtPosition (pt_x pos) (pt_y pos) strokes (size / 2) = Some "" ->
   eraseWholeStroke pos size strokes = strokes) /\
  (forall h s,
     findStrokeAtPosition (pt_x pos) (pt_y pos) strokes (size / 2) = Some h ->
     h <> "" ->
     (s ∈ eraseWholeStroke pos size strokes <-> s ∈ strokes /\ id s <> h)).
Proof.
  split; [apply eraseWholeStroke_sublist|].
  unfold eraseWholeStroke, truthy.
  split; [|split].
  - now intros ->.
  - now intros ->.
  - intros h s -> Hne. destruct (decide (h = "")); [contradiction|].
    rewrite list_elem_of_filter. tauto.
Qed.

Lemma whole_stroke_erase_removes_reported_id_witness :
  findStrokeAtPosition 5 0
    [mkStrokeLine "dup" [0; 0; 10; 0] "#000000" 3;
     mkStrokeLine "other" [50; 50; 60; 60] "#000000" 3;
     mkStrokeLine "dup" [5; -5; 5; 5] "#000000" 3] (20 / 2)
  = Some "dup" /\
  length
    (eraseWholeStroke (mkPoint 5 0) 20
       [mkStrokeLine "dup" [0; 0; 10; 0] "#000000" 3;
        mkStrokeLine "other" [50; 50; 60; 60] "#000000" 3;
        mkStrokeLine "dup" [5; -5; 5; 5] "#000000" 3]) = 1%nat /\
  mkStrokeLine "other" [50; 50; 60; 60] "#000000" 3
  ∈ eraseWholeStroke (mkPoint 5 0) 20
      [mkStrokeLine "dup" [0; 0; 10; 0] "#000000" 3;
       mkStrokeLine "other" [50; 50; 60; 60] "#000000" 3;
       mkStrokeLine "dup" [5; -5; 5; 5] "#000000" 3].
Proof.
  split; [vm_compute; reflexivity|]. split; [vm_compute; reflexivity|].
  apply (proj2 (proj2 (proj2 (whole_stroke_erase_removes_reported_id
           (mkPoint 5 0) 20
           [mkStrokeLine "dup" [0; 0; 10; 0] "#000000" 3;
            mkStrokeLine "other" [50; 50; 60; 60] "#000000" 3;
            mkStrokeLine "dup" [5; -5; 5; 5] "#000000" 3])))
           "dup" _ eq_refl ltac:(discriminate)).
  split; [right; left|discriminate].
Defined.

(** * A pen gesture *)

(** X11.  A pen gesture, handler after handler: pointer down adds one
    stroke holding the pressed point, with the current color and brush
    size; the next pointer move appends its point to that stroke when it
    is at least [MIN_POINT_DISTANCE] away and is dropped otherwise; after
    pointer up a further pointer move changes nothing.  The strokes that
    were there before are not touched. *)
Theorem pen_gesture (w : Whiteboard) (p0 p1 p2 : Point) (now : N)
    (b1 b2 : Z) :
  activeTool w = Pen ->
  is_finite (pt_x p0) = true -> is_finite (pt_y p0) = true ->
  is_finite (pt_x p1) = true -> is_finite (pt_y p1) = true ->
  let w1 := handlePointerDown (Some p0) now w in
  let w2 := handlePointerMove (Some p1) b1 w1 in
  let w4 := handlePointerMove (Some p2) b2 (handlePointerUp w2) in
  let distance :=
    sqrt ((pt_x p1 - pt_x p0) * (pt_x p1 - pt_x p0)
          + (pt_y p1 - pt_y p0) * (pt_y p1 - pt_y p0)) in
  lines w1
  = lines w ++ [mkStrokeLine ("stroke-" +:+ showN now) [pt_x p0; pt_y p0]
                  (strokeColor w) (brushSize w)] /\
  lines w2
  = lines w ++ [mkStrokeLine ("stroke-" +:+ showN now)
                  (if MIN_POINT_DISTANCE <=? distance
                   then [pt_x p0; pt_y p0; pt_x p1; pt_y p1]
                   else [pt_x p0; pt_y p0])
                  (strokeColor w) (brushSize w)] /\
  lines w4 = lines w2.
Proof.
  intros Htool H0x H0y H1x H1y w1 w2 w4 distance.
  assert (lines w1
    = lines w ++ [mkStrokeLine ("stroke-" +:+ showN now) [pt_x p0; pt_y p0]
                  (strokeColor w) (brushSize w)]) as E1.
  { unfold w1, handlePointerDown. now rewrite Htool. }
  assert (activeTool w1 = Pen /\ isDrawing w1 = true) as [Ht1 Hd1].
  { unfold w1, handlePointerDown. now rewrite Htool. }
  clearbody w1.
  assert (lines w2 = appendSample p1 (lines w1) /\ activeTool w2 = Pen)
    as [E2 Ht2].
  { unfold w2, handlePointerMove.
    cbn [activeTool isDrawing setCursorPos]. rewrite Ht1, Hd1.
    cbn [isEraser andb negb lines setLines setCursorPos activeTool].
    split; [reflexivity|exact Ht1]. }
  clearbody w2.
  split; [exact E1|]. split.
  - rewrite E2, E1.
    rewrite (appendSample_last p1 (lines w)
               (mkStrokeLine ("stroke-" +:+ showN now) [pt_x p0; pt_y p0]
                  (strokeColor w) (brushSize w))
               [] (pt_x p0) (pt_y p0) eq_refl).
    fold distance. cbn [id points color strokeWidth app].
    rewrite ltb_negb_leb;
      [|now apply sqrt_sq_dist_not_nan|reflexivity].
    now destruct (MIN_POINT_DISTANCE <=? distance).
  - unfold w4, handlePointerMove, handlePointerUp.
    cbn [activeTool isDrawing setCursorPos setIsDrawing]. rewrite Ht2.
    reflexivity.
Qed.

Lemma pen_gesture_witness :
  lines
    (handlePointerMove (Some (mkPoint 4 0)) 1
       (handlePointerDown (Some (mkPoint 0 0)) 17 initialWhiteboard))
  = [] ++ [mkStrokeLine "stroke-17" [0; 0; 4; 0] "#000000" 3].
Proof.
  exact (proj1 (proj2 (pen_gesture initialWhiteboard
    (mkPoint 0 0) (mkPoint 4 0) (mkPoint 9 9) 17 1 1
    eq_refl eq_refl eq_refl eq_refl eq_refl))).
Defined.

(** * A query on a point of the stroke *)

Lemma Prim2SF_zero (v : number) (s : bool) :
  Prim2SF v = S754_zero s -> isZeroNum v.
Proof.
  intros H. destruct s; [right|left]; apply Prim2SF_inj; rewrite H;
    reflexivity.
Qed.

Lemma mul_zero_finite (d : number) :
  is_finite d = true -> isZeroNum (0 * d).
Proof.
  intros H%is_finite_Prim2SF.
  apply (Prim2SF_zero _ (match Prim2SF d with
                         | S754_zero s | S754_finite s _ _ => s
                         | _ => false end)).
  rewrite FloatAxioms.mul_spec. change (Prim2SF 0) with (S754_zero false).
  destruct (Prim2SF d) as [s|s| |s m e]; simpl in *; tauto || reflexivity.
Qed.

Lemma add_zero_zero (a b : number) :
  isZeroNum a -> isZeroNum b -> isZeroNum (a + b).
Proof.
  intros [-> | ->] [-> | ->]; vm_compute; auto.
Qed.

Lemma div_zero_positive (z l : number) :
  isZeroNum z -> SFsigned false (Prim2SF l) -> (l =? 0) = false ->
  isZeroNum (z / l).
Proof.
  intros Hz Hl Hne. rewrite FloatAxioms.eqb_spec in Hne.
  change (Prim2SF 0) with (S754_zero false) in Hne.
  apply (Prim2SF_zero _ (match Prim2SF z with
                         | S754_zero s => s | _ => false end)).
  rewrite FloatAxioms.div_spec.
  destruct Hz as [-> | ->];
    [change (Prim2SF 0) with (S754_zero false)
    |change (Prim2SF neg_zero) with (S754_zero true)];
    destruct (Prim2SF l) as [s|s| |s m e]; simpl in *;
    try discriminate; try tauto; subst; reflexivity.
Qed.

Lemma clamp_zero (z : number) :
  isZeroNum z -> Math_max 0 (Math_min 1 z) = 0.
Proof. intros [-> | ->]; reflexivity. Qed.

Lemma sub_add_zero (v z : number) :
  is_finite v = true -> isZeroNum z -> isZeroNum (v - (v + z)).
Proof.
  intros Hv Hz. pose proof (is_finite_Prim2SF v Hv) as Hf.
  destruct (Prim2SF v) as [s|s| |s m e] eqn:E; simpl in Hf; try tauto.
  - apply Prim2SF_zero in E.
    destruct E as [-> | ->], Hz as [-> | ->]; vm_compute; auto.
  - assert (v + z = v) as ->.
    { apply Prim2SF_inj. rewrite FloatAxioms.add_spec, E.
      destruct Hz as [-> | ->]; reflexivity. }
    left. now apply sub_diag_finite.
Qed.

Lemma pow2_zero (d : number) : isZeroNum d -> pow2 d = 0.
Proof. intros [-> | ->]; reflexivity. Qed.

Lemma is_finite_number (v : number) :
  is_finite v = true -> SFnumber (Prim2SF v).
Proof.
  intros H%is_finite_Prim2SF. unfold SFnumber.
  destruct (Prim2SF v); simpl in *; congruence || tauto.
Qed.

(** The distance from the first end of a segment to the segment is 0. *)
Lemma pointToSegmentDistance_at_start (x1 y1 x2 y2 : number) :
  is_finite x1 = true -> is_finite y1 = true ->
  is_finite (x2 - x1) = true -> is_finite (y2 - y1) = true ->
  pointToSegmentDistance x1 y1 x1 y1 x2 y2 = 0.
Proof.
  intros Hx Hy Hdx Hdy. unfold pointToSegmentDistance. cbv zeta.
  rewrite (sub_diag_finite x1 Hx), (sub_diag_finite y1 Hy).
  set (dx := x2 - x1) in *. set (dy := y2 - y1) in *.
  destruct (dx * dx + dy * dy =? 0) eqn:E; [reflexivity|].
  assert (isZeroNum ((0 * dx + 0 * dy) / (dx * dx + dy * dy))) as Hz.
  { apply div_zero_positive; [|
      rewrite FloatAxioms.add_spec, !FloatAxioms.mul_spec;
      apply SFadd_nonneg; apply SFmul_self, is_finite_number; assumption
      |exact E].
    apply add_zero_zero; now apply mul_zero_finite. }
  rewrite (clamp_zero _ Hz).
  rewrite (pow2_zero _ (sub_add_zero x1 (0 * dx) Hx (mul_zero_finite dx Hdx))).
  rewrite (pow2_zero _ (sub_add_zero y1 (0 * dy) Hy (mul_zero_finite dy Hdy))).
  reflexivity.
Qed.

(** X12.  A query placed exactly on a point of a stroke that starts a
    segment (every point but the last) is at distance 0 from that segment,
    for finite coordinates and finite coordinate differences; so with a
    threshold that is not negative the stroke is hit, and the hit test
    reports it when it is the topmost stroke. *)
Theorem query_on_stroke_point_hits (r : number) (s : StrokeLine) (k : nat)
    (below : list StrokeLine) :
  let j := Z.of_nat (2 * k) in
  let x1 := getNum (points s) j in
  let y1 := getNum (points s) (j + 1) in
  let x2 := getNum (points s) (j + 2) in
  let y2 := getNum (points s) (j + 3) in
  2 * k + 3 < length (points s) ->
  is_finite x1 = true -> is_finite y1 = true ->
  is_finite (x2 - x1) = true -> is_finite (y2 - y1) = true ->
  (0 <=? r + strokeWidth s / 2) = true ->
  pointToSegmentDistance x1 y1 x1 y1 x2 y2 = 0 /\
  strokeHit x1 y1 r s = true /\
  findStrokeAtPosition x1 y1 (below ++ [s]) r = Some (id s).
Proof.
  intros j x1 y1 x2 y2 Hlen Hx Hy Hdx Hdy Hthr.
  pose proof (pointToSegmentDistance_at_start x1 y1 x2 y2 Hx Hy Hdx Hdy) as Hd.
  assert (strokeHit x1 y1 r s = true) as Hhit.
  { unfold strokeHit. apply existsb_exists. exists k. split.
    - apply in_seq. split; [lia|]. unfold segmentCountOf. cbn [Nat.add].
      apply (Nat.lt_le_trans _ (S k)); [lia|].
      apply Nat.div_le_lower_bound; lia.
    - unfold segmentWithin. fold j x1 y1 x2 y2. now rewrite Hd. }
  split; [exact Hd|]. split; [exact Hhit|].
  apply findStrokeAtPosition_first; [constructor|exact Hhit].
Qed.

Lemma query_on_stroke_point_hits_witness :
  findStrokeAtPosition 7 9
    ([mkStrokeLine "a" [0; 0; 50; 50] "#000000" 3]
     ++ [mkStrokeLine "b" [1; 2; 7; 9; 30; 4] "#000000" 3]) 0
  = Some "b".
Proof.
  exact (proj2 (proj2 (query_on_stroke_point_hits 0
    (mkStrokeLine "b" [1; 2; 7; 9; 30; 4] "#000000" 3) 1
    [mkStrokeLine "a" [0; 0; 50; 50] "#000000" 3]
    ltac:(simpl; lia) eq_refl eq_refl eq_refl eq_refl eq_refl))).
Defined.

(** * The fragments of a stroke, end to end *)

Section FragmentOrder.

Variables x y eraserRadius : number.
Variable stroke : StrokeLine.

Lemma orderInv_weaken walk more st :
  orderInv walk st -> orderInv (walk ++ more) st.
Proof. intros [H1 H2]. split; [exact H1|]. now apply sublist_inserts_r. Qed.

Lemma orderInv_pushPoint walk a b st :
  orderInv walk st -> orderInv (walk ++ [mkPoint a b]) (pushPoint a b st).
Proof.
  intros [H1 H2]. unfold pushPoint. split.
  - now apply even_length_snoc2.
  - cbn [result currentLinePoints]. rewrite pointsOf_snoc by exact H1.
    rewrite app_assoc. now apply sublist_app.
Qed.

Lemma orderInv_finishLine walk st :
  orderInv walk st -> orderInv walk (finishLine stroke st).
Proof.
  intros [H1 H2]. unfold finishLine.
  destruct (4 <=? length (currentLinePoints st))%nat;
    (split; [reflexivity|]); cbn [result currentLinePoints pointsOf].
  - unfold allPointsOf in *. rewrite flat_map_app. cbn [flat_map points].
    now rewrite !app_nil_r.
  - rewrite app_nil_r. etransitivity; [|exact H2].
    now apply sublist_inserts_r.
Qed.

Lemma orderInv_crossIntersection walk st i :
  orderInv walk st -> orderInv (walk ++ [i]) (crossIntersection stroke st i).
Proof.
  intros H. unfold crossIntersection. destruct i as [ix iy]. cbn [pt_x pt_y].
  destruct (0 <? length (currentLinePoints st))%nat.
  - now apply orderInv_finishLine, orderInv_pushPoint.
  - now apply orderInv_pushPoint.
Qed.

Lemma orderInv_fold walk cuts st :
  orderInv walk st ->
  orderInv (walk ++ cuts) (fold_left (crossIntersection stroke) cuts st).
Proof.
  revert walk st. induction cuts as [|i cuts IH]; intros walk st H.
  - now rewrite app_nil_r.
  - cbn [fold_left].
    replace (walk ++ i :: cuts) with ((walk ++ [i]) ++ cuts)
      by (now rewrite <- app_assoc).
    now apply IH, orderInv_crossIntersection.
Qed.

Lemma orderInv_eraseSegment walk px py cx cy st :
  orderInv walk st ->
  orderInv
    (walk ++ sortedCuts x y eraserRadius (mkPoint px py) (mkPoint cx cy)
          ++ (if isPointInCircle cx cy x y eraserRadius then []
              else [mkPoint cx cy]))
    (eraseSegment x y eraserRadius stroke px py cx cy st).
Proof.
  intros H. unfold eraseSegment, sortedCuts.
  destruct (getSegmentCircleIntersections _ _ _ _) as [|i l] eqn:E.
  - cbn [length Nat.eqb sortPoints fold_left app].
    destruct (isPointInCircle cx cy x y eraserRadius); cbn [negb].
    + rewrite app_nil_r. now apply orderInv_finishLine.
    + now apply orderInv_pushPoint.
  - cbn [length Nat.eqb]. rewrite app_assoc.
    destruct (isPointInCircle cx cy x y eraserRadius); cbn [negb].
    + rewrite app_nil_r. now apply orderInv_fold.
    + now apply orderInv_pushPoint, orderInv_fold.
Qed.

Lemma orderInv_eraseSegments rest : forall walk px py st,
  orderInv walk st ->
  orderInv (walk ++ survivorsFrom x y eraserRadius px py rest)
    (eraseSegments x y eraserRadius stroke px py rest st).
Proof.
  induction rest as [rest IH] using (induction_ltof1 _ (@length number)).
  unfold ltof in IH. intros walk px py st H.
  destruct rest as [|cx [|cy rest']].
  - cbn [survivorsFrom eraseSegments]. now rewrite app_nil_r.
  - cbn [survivorsFrom eraseSegments]. now apply orderInv_eraseSegment.
  - cbn [survivorsFrom eraseSegments].
    set (cuts := sortedCuts x y eraserRadius (mkPoint px py) (mkPoint cx cy)).
    set (end_ := if isPointInCircle cx cy x y eraserRadius then []
                 else [mkPoint cx cy]).
    replace (walk ++ cuts ++ end_ ++ survivorsFrom x y eraserRadius cx cy rest')
      with ((walk ++ cuts ++ end_) ++ survivorsFrom x y eraserRadius cx cy rest')
      by (now rewrite <- !app_assoc).
    apply IH; [simpl; lia|]. now apply orderInv_eraseSegment.
Qed.

Lemma orderInv_startLine :
  orderInv
    (if isPointInCircle (getNum (points stroke) 0) (getNum (points stroke) 1)
          x y eraserRadius
     then [] else [mkPoint (getNum (points stroke) 0) (getNum (points stroke) 1)])
    (startLine x y eraserRadius [] stroke).
Proof.
  assert (forall walk, orderInv walk (mkEraseState [] [] 0)) as Hinit.
  { intros walk. split; [reflexivity|apply sublist_nil_l]. }
  unfold startLine. destruct (isPointInCircle _ _ _ _ _); cbn [negb].
  - apply Hinit.
  - apply (orderInv_pushPoint [] _ _ (mkEraseState [] [] 0)), Hinit.
Qed.

Lemma fragmentsOf_in_order :
  4 <= length (points stroke) ->
  allPointsOf (fragmentsOf x y eraserRadius stroke)
    `sublist_of` survivors x y eraserRadius (points stroke).
Proof.
  intros Hge. rewrite fragmentsOf_long by exact Hge.
  pose proof (orderInv_finishLine _ _
    (orderInv_eraseSegments (drop 2 (points stroke)) _
       (getNum (points stroke) 0) (getNum (points stroke) 1) _
       orderInv_startLine)) as [_ H].
  etransitivity; [|exact H]. now apply sublist_inserts_r.
Qed.

End FragmentOrder.

(** * The sign of a difference *)

Section SubtractionSign.

Local Open Scope Z_scope.

Lemma digits2_pos_bounds (m : positive) :
  2 ^ (Z.pos (digits2_pos m) - 1) <= Z.pos m < 2 ^ Z.pos (digits2_pos m).
Proof.
  induction m as [m IH|m IH|]; cbn [digits2_pos].
  - rewrite Pos2Z.inj_succ.
    replace (Z.succ (Z.pos (digits2_pos m)) - 1)
      with (Z.succ (Z.pos (digits2_pos m) - 1)) by lia.
    rewrite !Z.pow_succ_r by lia. lia.
  - rewrite Pos2Z.inj_succ.
    replace (Z.succ (Z.pos (digits2_pos m)) - 1)
      with (Z.succ (Z.pos (digits2_pos m) - 1)) by lia.
    rewrite !Z.pow_succ_r by lia. lia.
  - cbn. lia.
Qed.

Lemma shr_1_lower mrs k :
  0 <= k -> 2 ^ (k + 1) <= shr_m mrs -> 2 ^ k <= shr_m (shr_1 mrs).
Proof.
  intros Hk. rewrite Z.add_1_r, Z.pow_succ_r by exact Hk.
  pose proof (Z.pow_pos_nonneg 2 k ltac:(lia) Hk).
  destruct mrs as [m r s]; cbn [shr_m].
  destruct m as [|[p|p|]|[p|p|]]; cbn [shr_1 shr_m]; lia.
Qed.

Lemma iter_pos_lower p : forall mrs k,
  0 <= k -> 2 ^ (k + Z.pos p) <= shr_m mrs ->
  2 ^ k <= shr_m (SpecFloat.iter_pos shr_1 p mrs).
Proof.
  induction p as [p IH|p IH|]; intros mrs k Hk H; cbn [SpecFloat.iter_pos].
  - apply IH; [exact Hk|]. apply IH; [lia|]. apply shr_1_lower; [lia|].
    replace (k + Z.pos p + Z.pos p + 1) with (k + Z.pos p~1) by lia. exact H.
  - apply IH; [exact Hk|]. apply IH; [lia|].
    replace (k + Z.pos p + Z.pos p) with (k + Z.pos p~0) by lia. exact H.
  - apply shr_1_lower; assumption.
Qed.

Lemma shr_fexp_pos m e l :
  0 < m -> emin <= e ->
  0 < shr_m (fst (shr_fexp prec emax m e l)) /\
  emin <= snd (shr_fexp prec emax m e l).
Proof.
  intros Hm He. destruct m as [|p|p]; try lia.
  unfold shr_fexp, shr, fexp. cbn [Zdigits2].
  assert (shr_m (shr_record_of_loc (Z.pos p) l) = Z.pos p) as Hrec
    by (destruct l as [|[]]; reflexivity).
  pose proof (digits2_pos_bounds p) as [Hlo _].
  destruct (_ - e) as [|q|q] eqn:En; cbn [fst snd]; try (rewrite Hrec; lia).
  split; [|lia].
  assert (2 ^ 0 <= shr_m (SpecFloat.iter_pos shr_1 q
                            (shr_record_of_loc (Z.pos p) l))); [|lia].
  apply iter_pos_lower; [lia|]. rewrite Hrec.
  etransitivity; [|exact Hlo].
  unfold SpecFloat.emin, prec, emax in *.
  apply Z.pow_le_mono_r; lia.
Qed.

Lemma round_nearest_even_pos m l : 0 < m -> 0 < round_nearest_even m l.
Proof.
  intros H. destruct l as [|[]]; cbn [round_nearest_even]; try lia.
  destruct (Z.even m); lia.
Qed.

Lemma binary_round_aux_strict s m e l :
  0 < m -> emin <= e -> SFstrict s (binary_round_aux prec emax s m e l).
Proof.
  intros Hm He. unfold binary_round_aux.
  pose proof (shr_fexp_pos m e l Hm He) as [H1 H1'].
  destruct (shr_fexp prec emax m e l) as [mrs' e'] eqn:E1.
  cbn [fst snd] in H1, H1'.
  pose proof (shr_fexp_pos _ e' loc_Exact
                (round_nearest_even_pos _ (loc_of_shr_record mrs') H1) H1')
    as [H2 _].
  destruct (shr_fexp prec emax _ e' loc_Exact) as [mrs'' e''] eqn:E2.
  cbn [fst] in H2.
  destruct (shr_m mrs'') as [|q|q]; try lia.
  destruct (e'' <=? _); reflexivity.
Qed.

Lemma binary_round_strict s m e :
  emin <= e -> SFstrict s (binary_round prec emax s m e).
Proof.
  intros He. unfold binary_round, shl_align.
  destruct (_ - e) as [|q|q] eqn:En; apply binary_round_aux_strict; try lia.
  unfold fexp. lia.
Qed.

Lemma shl_align_fst m e ez :
  ez <= e -> Z.pos (fst (shl_align m e ez)) = Z.pos m * 2 ^ (e - ez).
Proof.
  intros H. unfold shl_align.
  destruct (ez - e) as [|q|q] eqn:En; cbn [fst]; try lia.
  - replace (e - ez) with 0 by lia. lia.
  - replace (e - ez) with (Z.pos q) by lia.
    change (Pos.iter xO m q) with (shift_pos q m).
    rewrite shift_pos_correct. change (2 ^ Z.pos q) with (Z.pow_pos 2 q). lia.
Qed.

Lemma bounded_bounds m e :
  bounded prec emax m e = true ->
  emin <= e /\ Z.pos (digits2_pos m) <= 53 /\
  (emin < e -> Z.pos (digits2_pos m) = 53).
Proof.
  unfold bounded, canonical_mantissa, fexp.
  intros [H _]%andb_true_iff. apply Z.eqb_eq in H.
  unfold SpecFloat.emin, prec, emax in *. lia.
Qed.

Lemma mantissa_lt_shifted mx ex my ey :
  bounded prec emax mx ex = true -> bounded prec emax my ey = true ->
  ex < ey -> Z.pos mx < Z.pos my * 2 ^ (ey - ex).
Proof.
  intros Hx Hy Hlt.
  destruct (bounded_bounds _ _ Hx) as (Hex & Hdx & _).
  destruct (bounded_bounds _ _ Hy) as (_ & _ & Hdy).
  specialize (Hdy ltac:(lia)).
  pose proof (digits2_pos_bounds mx) as [_ Hux].
  pose proof (digits2_pos_bounds my) as [Hly _].
  rewrite Hdy in Hly.
  assert (2 ^ Z.pos (digits2_pos mx) <= 2 ^ 53) as H53
    by (apply Z.pow_le_mono_r; lia).
  assert (2 ^ 1 <= 2 ^ (ey - ex)) as H2 by (apply Z.pow_le_mono_r; lia).
  change (2 ^ 53) with 9007199254740992 in H53.
  change (2 ^ (53 - 1)) with 4503599627370496 in Hly.
  change (2 ^ 1) with 2 in H2.
  nia.
Qed.

Lemma SFcompare_finite_Z sx mx ex sy my ey :
  bounded prec emax mx ex = true -> bounded prec emax my ey = true ->
  SFcompare (S754_finite sx mx ex) (S754_finite sy my ey)
  = Some (cond_Zopp sx (Z.pos (fst (shl_align mx ex (Z.min ex ey))))
          ?= cond_Zopp sy (Z.pos (fst (shl_align my ey (Z.min ex ey))))).
Proof.
  intros Hx Hy. rewrite !shl_align_fst by lia.
  assert (0 < 2 ^ (ex - Z.min ex ey)) by (apply Z.pow_pos_nonneg; lia).
  assert (0 < 2 ^ (ey - Z.min ex ey)) by (apply Z.pow_pos_nonneg; lia).
  assert (forall a b : Z, a < b -> (a ?= b) = Lt) as HLt
    by (intros; now apply Z.compare_lt_iff).
  assert (forall a b : Z, b < a -> (a ?= b) = Gt) as HGt
    by (intros; now apply Z.compare_gt_iff).
  assert (match ex ?= ey with
          | Eq => Pos.compare_cont Eq mx my
          | Lt => Lt
          | Gt => Gt
          end
          = (Z.pos mx * 2 ^ (ex - Z.min ex ey)
             ?= Z.pos my * 2 ^ (ey - Z.min ex ey))) as Hpos.
  { destruct (Z.compare_spec ex ey) as [E|L|G].
    - subst ey. rewrite Z.min_id, Z.sub_diag, !Z.mul_1_r. reflexivity.
    - symmetry. apply HLt.
      replace (Z.min ex ey) with ex by lia. rewrite Z.sub_diag, Z.mul_1_r.
      now apply mantissa_lt_shifted.
    - symmetry. apply HGt.
      replace (Z.min ex ey) with ey by lia. rewrite Z.sub_diag, Z.mul_1_r.
      now apply mantissa_lt_shifted. }
  cbn [SFcompare]. f_equal.
  destruct sx, sy; cbn [cond_Zopp].
  - rewrite Z.compare_opp, (Z.compare_antisym _ (Z.pos my * _)), <- Hpos.
    now destruct (ex ?= ey).
  - symmetry. apply HLt. lia.
  - symmetry. apply HGt. lia.
  - exact Hpos.
Qed.

Lemma SFstrict_ltb_zero s x :
  SFstrict s x -> SFltb x (S754_zero false) = s.
Proof.
  destruct x as [s'|s'| |s' m e]; cbn [SFstrict]; try tauto;
    intros ->; now destruct s.
Qed.

(** On binary64 the sign of a difference tells the order of its terms: the
    subtraction never rounds a difference that is not zero to zero. *)
Lemma SFsub_ltb_zero (x y : spec_float) :
  valid_binary x = true -> valid_binary y = true ->
  SFltb (SF64sub x y) (S754_zero false) = SFltb x y.
Proof.
  destruct x as [sx|sx| |sx mx ex], y as [sy|sy| |sy my ey];
    cbn [SpecFloat.valid_binary]; intros Hx Hy;
    try (destruct sx, sy; reflexivity); try (destruct sx; reflexivity);
    try (destruct sy; reflexivity); try reflexivity.
  unfold SFltb at 2. rewrite SFcompare_finite_Z by assumption.
  unfold SF64sub, SFsub. cbv zeta.
  destruct (bounded_bounds _ _ Hx) as (Hex & _).
  destruct (bounded_bounds _ _ Hy) as (Hey & _).
  set (zx := cond_Zopp sx _). set (zy := cond_Zopp sy _).
  destruct (Z.compare_spec zx zy) as [E|L|G].
  - replace (zx - zy) with 0 by lia. reflexivity.
  - destruct (zx - zy) as [|q|q] eqn:Ez; try lia.
    cbn [binary_normalize]. apply SFstrict_ltb_zero, binary_round_strict. lia.
  - destruct (zx - zy) as [|q|q] eqn:Ez; try lia.
    cbn [binary_normalize]. apply SFstrict_ltb_zero, binary_round_strict. lia.
Qed.

End SubtractionSign.

(** [a - b < 0] is [a < b], for all binary64 values. *)
Lemma sub_ltb_zero (a b : number) : (a - b <? 0) = (a <? b).
Proof.
  rewrite !FloatAxioms.ltb_spec, FloatAxioms.sub_spec.
  apply SFsub_ltb_zero; apply Prim2SF_valid.
Qed.

Lemma sortInsert_length cmp e l :
  length (sortInsert cmp e l) = S (length l).
Proof.
  induction l as [|h l IH]; [reflexivity|].
  cbn [sortInsert]. destruct (_ <? 0); cbn [length]; [reflexivity|].
  now rewrite IH.
Qed.

Lemma sortPoints_length cmp l : length (sortPoints cmp l) = length l.
Proof.
  unfold sortPoints.
  assert (forall acc, length (fold_left
            (fun sorted e => sortInsert cmp e sorted) l acc)
          = (length acc + length l)%nat) as H.
  { induction l as [|e l IH]; intros acc; cbn [fold_left length]; [lia|].
    rewrite IH, sortInsert_length. lia. }
  now rewrite H.
Qed.

Lemma sortedCuts_length x y r p1 p2 : length (sortedCuts x y r p1 p2) <= 2.
Proof.
  unfold sortedCuts. rewrite sortPoints_length.
  unfold getSegmentCircleIntersections. cbv zeta.
  destruct (0 <=? _); [|simpl; lia].
  destruct (_ =? 0); [simpl; lia|].
  rewrite length_app. destruct (_ && _), (_ && _); simpl; lia.
Qed.

Lemma survivorsFrom_length x y r rest : forall px py,
  2 * length (survivorsFrom x y r px py rest) <= 3 * (length rest + 1).
Proof.
  induction rest as [rest IH] using (induction_ltof1 _ (@length number)).
  unfold ltof in IH. intros px py.
  destruct rest as [|cx [|cy rest']]; cbn [survivorsFrom].
  - simpl. lia.
  - rewrite length_app.
    pose proof (sortedCuts_length x y r (mkPoint px py) (mkPoint cx nan)).
    destruct (isPointInCircle cx nan x y r); simpl; lia.
  - rewrite !length_app.
    pose proof (sortedCuts_length x y r (mkPoint px py) (mkPoint cx cy)).
    pose proof (IH rest' ltac:(simpl; lia) cx cy).
    destruct (isPointInCircle cx cy x y r); simpl; lia.
Qed.

Lemma pointsOf_length_ge pts : 4 <= length pts -> 2 <= length (pointsOf pts).
Proof.
  destruct pts as [|a [|b [|c [|d rest]]]]; simpl; lia.
Qed.

Lemma allPointsOf_length (frags : list StrokeLine) :
  Forall (fun f => 4 <= length (points f)) frags ->
  2 * length frags <= length (allPointsOf frags).
Proof.
  unfold allPointsOf. induction 1 as [|f frags Hf _ IH]; [simpl; lia|].
  cbn [flat_map length]. rewrite length_app.
  pose proof (pointsOf_length_ge _ Hf). lia.
Qed.

Lemma getSegmentCircleIntersections_length p1 p2 c r :
  length (getSegmentCircleIntersections p1 p2 c r) <= 2.
Proof.
  unfold getSegmentCircleIntersections. cbv zeta.
  destruct (0 <=? _); [|simpl; lia].
  destruct (_ =? 0); [simpl; lia|].
  rewrite length_app. destruct (_ && _), (_ && _); simpl; lia.
Qed.

Lemma ltb_asym (a b : number) : (a <? b) = true -> (b <? a) = false.
Proof.
  rewrite !FloatAxioms.ltb_spec. unfold SFltb.
  rewrite (SFcompare_antisym (Prim2SF a) (Prim2SF b)).
  now destruct (SFcompare (Prim2SF a) (Prim2SF b)) as [[]|].
Qed.

(** The comparator of the sort puts first what is strictly closer to
    [p1]. *)
Lemma sortPoints_two p1 (a b : Point) :
  sortPoints (fun u v => distSq p1 u - distSq p1 v) [a; b]
  = if distSq p1 b <? distSq p1 a then [b; a] else [a; b].
Proof.
  unfold sortPoints. cbn [fold_left sortInsert]. now rewrite sub_ltb_zero.
Qed.

(** The cuts of a segment are visited from its start: no cut is strictly
    closer to the start than a cut visited before it. *)
Lemma sortedCuts_ascending x y r p1 p2 (i j : nat) (u v : Point) :
  (i < j)%nat ->
  sortedCuts x y r p1 p2 !! i = Some u ->
  sortedCuts x y r p1 p2 !! j = Some v ->
  (distSq p1 v <? distSq p1 u) = false.
Proof.
  unfold sortedCuts.
  pose proof (getSegmentCircleIntersections_length p1 p2 (mkPoint x y) r) as Hl.
  destruct (getSegmentCircleIntersections p1 p2 (mkPoint x y) r)
    as [|a [|b [|c l]]]; try (cbn [length] in Hl; lia).
  - intros _ H. discriminate H.
  - intros Hij _ H. destruct j; [lia|discriminate H].
  - rewrite sortPoints_two. intros Hij Hi Hj.
    destruct (distSq p1 b <? distSq p1 a) eqn:E.
    + destruct i as [|i]; [|destruct j as [|[|j]]; [lia|lia|discriminate Hj]].
      destruct j as [|[|j]]; [lia| |discriminate Hj].
      injection Hi as <-. injection Hj as <-. now apply ltb_asym.
    + destruct i as [|i]; [|destruct j as [|[|j]]; [lia|lia|discriminate Hj]].
      destruct j as [|[|j]]; [lia| |discriminate Hj].
      injection Hi as <-. injection Hj as <-. exact E.
Qed.

(** X13.  The fragments of a stroke come in the order of the stroke and
    share no point of the walk along it: their points, put end to end, are
    in order points of that walk, in which the cuts of a segment come
    between its two ends.  The cuts of a segment are the intersections
    that [getSegmentCircleIntersections] computes for it, each once, and
    they are visited from the start of the segment: no cut is strictly
    closer to the start than a cut visited before it.  Hence a stroke of
    [n] coordinates leaves fewer than [3 n / 4] fragments. *)
Theorem fragments_follow_the_stroke (x y r : number) (s : StrokeLine) :
  4 <= length (points s) ->
  allPointsOf (eraseAtPosition x y [s] r)
    `sublist_of` survivors x y r (points s) /\
  (forall p1 p2 : Point,
     sortedCuts x y r p1 p2
       ≡ₚ getSegmentCircleIntersections p1 p2 (mkPoint x y) r /\
     forall (i j : nat) (u v : Point),
       (i < j)%nat ->
       sortedCuts x y r p1 p2 !! i = Some u ->
       sortedCuts x y r p1 p2 !! j = Some v ->
       (distSq p1 v <? distSq p1 u) = false) /\
  4 * length (eraseAtPosition x y [s] r) < 3 * length (points s).
Proof.
  intros Hge.
  assert (eraseAtPosition x y [s] r = fragmentsOf x y r s) as ->.
  { rewrite eraseAtPosition_flat_map. cbn [flat_map]. apply app_nil_r. }
  pose proof (fragmentsOf_in_order x y r s Hge) as Hsub.
  split; [exact Hsub|]. split.
  { intros p1 p2. split; [apply sortPoints_Permutation|].
    apply sortedCuts_ascending. }
  apply sublist_length in Hsub.
  assert (2 * length (fragmentsOf x y r s)
          <= length (allPointsOf (fragmentsOf x y r s))) as Hfr.
  { apply allPointsOf_length, Forall_lookup_2. intros k f Hk.
    now destruct (fragmentsOf_ok x y r s Hge k f Hk) as (_ & _ & _ & H4 & _). }
  unfold survivors in Hsub. rewrite length_app in Hsub.
  pose proof (survivorsFrom_length x y r (drop 2 (points s))
                (getNum (points s) 0) (getNum (points s) 1)) as Hs.
  rewrite length_drop in Hs.
  destruct (isPointInCircle _ _ _ _ _); cbn [length] in Hsub; lia.
Qed.

(** The eraser on the middle of a segment: the two fragments are the part
    before the circle and the part after it, and the cut at distance 40
    from the start is visited before the cut at distance 60. *)
Lemma fragments_follow_the_stroke_witness :
  4 <= length [0; 0; 100; 0] /\
  eraseAtPosition 50 0 [mkStrokeLine "s" [0; 0; 100; 0] "#000000" 3] 10
  = [mkStrokeLine "s-0" [0; 0; 40; 0] "#000000" 3;
     mkStrokeLine "s-1" [60; 0; 100; 0] "#000000" 3] /\
  sortedCuts 50 0 10 (mkPoint 0 0) (mkPoint 100 0)
  = [mkPoint 40 0; mkPoint 60 0] /\
  (distSq (mkPoint 0 0) (mkPoint 60 0) <? distSq (mkPoint 0 0) (mkPoint 40 0))
  = false /\
  allPointsOf (eraseAtPosition 50 0
                 [mkStrokeLine "s" [0; 0; 100; 0] "#000000" 3] 10)
    `sublist_of` survivors 50 0 10 [0; 0; 100; 0].
Proof.
  assert (4 <= length [0; 0; 100; 0]) as H by (simpl; lia).
  pose proof (fragments_follow_the_stroke 50 0 10
                (mkStrokeLine "s" [0; 0; 100; 0] "#000000" 3) H)
    as (Hsub & Hcuts & _).
  split; [exact H|]. split; [vm_compute; reflexivity|].
  split; [vm_compute; reflexivity|].
  split; [|exact Hsub].
  exact (proj2 (Hcuts (mkPoint 0 0) (mkPoint 100 0)) 0%nat 1%nat
           (mkPoint 40 0) (mkPoint 60 0) (Nat.lt_0_1) eq_refl eq_refl).
Defined.

(** * Samples that are not numbers *)

(** X14.  The distance filter of the pen lets through what it cannot
    measure: while drawing, a sample with a NaN coordinate, and any sample
    when the stroke in progress has no point yet, is appended to the
    stroke. *)
Theorem unmeasurable_sample_is_appended (w : Whiteboard) (pos : Point)
    (buttons : Z) (earlier : list StrokeLine) (lastLine : StrokeLine) :
  activeTool w = Pen ->
  isDrawing w = true ->
  lines w = earlier ++ [lastLine] ->
  ((is_nan (pt_x pos) || is_nan (pt_y pos)) = true \/ points lastLine = []) ->
  lines (handlePointerMove (Some pos) buttons w)
  = earlier ++
    [mkStrokeLine (id lastLine) (points lastLine ++ [pt_x pos; pt_y pos])
                  (color lastLine) (strokeWidth lastLine)].
Proof.
  intros Htool Hdraw Hlines Hcase.
  unfold handlePointerMove. cbn [activeTool isDrawing setCursorPos].
  rewrite Htool, Hdraw. cbn [isEraser andb negb lines setLines setCursorPos].
  rewrite Hlines. unfold appendSample. rewrite last_snoc.
  assert (sqrt
    ((pt_x pos - getNum (points lastLine) (Z.of_nat (length (points lastLine)) - 2))
     * (pt_x pos - getNum (points lastLine) (Z.of_nat (length (points lastLine)) - 2))
     + (pt_y pos - getNum (points lastLine) (Z.of_nat (length (points lastLine)) - 1))
       * (pt_y pos - getNum (points lastLine) (Z.of_nat (length (points lastLine)) - 1)))
    = nan) as ->.
  { destruct Hcase as [Hnan|Hempty].
    - apply orb_true_iff in Hnan as [->%is_nan_eq | ->%is_nan_eq];
        nan_simpl; reflexivity.
    - rewrite Hempty. change (getNum [] (Z.of_nat (length []) - 2)) with nan.
      nan_simpl. reflexivity. }
  rewrite ltb_nan_l, length_app. cbn [length].
  replace (length earlier + 1 - 1)%nat with (length earlier) by lia.
  now rewrite take_app_length.
Qed.

Lemma unmeasurable_sample_is_appended_witness :
  lines
    (handlePointerMove (Some (mkPoint nan 1)) 0
       (mkWhiteboard [mkStrokeLine "stroke-1" [0; 0] "#000000" 3]
          true 3 "#000000" Pen StrokeMode 20 None))
  = [] ++ [mkStrokeLine "stroke-1" [0; 0; nan; 1] "#000000" 3].
Proof.
  exact (unmeasurable_sample_is_appended
    (mkWhiteboard [mkStrokeLine "stroke-1" [0; 0] "#000000" 3]
          true 3 "#000000" Pen StrokeMode 20 None)
    (mkPoint nan 1) 0 [] (mkStrokeLine "stroke-1" [0; 0] "#000000" 3)
    eq_refl eq_refl eq_refl (or_introl eq_refl)).
Defined.

(** * The stroke eraser after a partial erase *)

(** X15.  After a partial erase of a collection with distinct identifiers,
    the stroke eraser still works one stroke at a time: when its hit test
    reports an identifier, exactly one stroke, the one that carries it,
    is removed from the erased collection. *)
Theorem stroke_eraser_after_partial_erase (x y r : number) (pos : Point)
    (size : number) (strokes : list StrokeLine) (h : string) :
  idsOk strokes ->
  findStrokeAtPosition (pt_x pos) (pt_y pos)
    (eraseAtPosition x y strokes r) (size / 2) = Some h ->
  (length (eraseWholeStroke pos size (eraseAtPosition x y strokes r)) + 1
   = length (eraseAtPosition x y strokes r))%nat /\
  (h ∉ (id <$> eraseWholeStroke pos size (eraseAtPosition x y strokes r))) /\
  eraseWholeStroke pos size (eraseAtPosition x y strokes r)
    `sublist_of` eraseAtPosition x y strokes r.
Proof.
  intros Hok Hfind.
  pose proof (eraseAtPosition_idsOk x y r strokes Hok) as [Hnd Hall].
  destruct (findStrokeAtPosition_some _ _ _ _ _ Hfind)
    as (below & s & above & E & _ & _ & Hid).
  rewrite E in *.
  assert (id s <> "") as Hne.
  { apply Forall_app in Hall as [_ Hall]. apply Forall_inv in Hall as [H1 _].
    intros E0. rewrite E0 in H1. simpl in H1. lia. }
  subst h.
  rewrite (eraseWholeStroke_hit pos size below s above Hnd Hfind Hne).
  split; [rewrite !length_app; cbn [length]; lia|]. split.
  - rewrite fmap_app, fmap_cons in Hnd.
    apply NoDup_app in Hnd as (_ & Hb & Ha).
    apply NoDup_cons in Ha as [Ha _].
    rewrite fmap_app, elem_of_app.
    intros [Hin|Hin]; [apply (Hb _ Hin); left|now apply Ha].
  - apply sublist_app; [reflexivity|]. now apply sublist_cons.
Qed.

Lemma stroke_eraser_after_partial_erase_witness :
  eraseAtPosition 50 0 [mkStrokeLine "stroke-1" [0; 0; 100; 0] "#000000" 3] 10
  = [mkStrokeLine "stroke-1-0" [0; 0; 40; 0] "#000000" 3;
     mkStrokeLine "stroke-1-1" [60; 0; 100; 0] "#000000" 3] /\
  S (length (eraseWholeStroke (mkPoint 80 0) 20
       (eraseAtPosition 50 0
          [mkStrokeLine "stroke-1" [0; 0; 100; 0] "#000000" 3] 10)))
  = length (eraseAtPosition 50 0
       [mkStrokeLine "stroke-1" [0; 0; 100; 0] "#000000" 3] 10).
Proof.
  split; [vm_compute; reflexivity|].
  refine (proj1 (stroke_eraser_after_partial_erase 50 0 10 (mkPoint 80 0) 20
    [mkStrokeLine "stroke-1" [0; 0; 100; 0] "#000000" 3] "stroke-1-1" _ _)).
  - split.
    + cbn [fmap list_fmap id]. apply NoDup_singleton.
    + repeat constructor; cbn [points length]; intros; lia.
  - vm_compute. reflexivity.
Defined.
